(** * pyscses Site model: occupation probabilities and site charge

    A shallow embedding of [src/pyscses/site.py] (class [Site]) and of
    [src/project/practice.py] (grid lookup helpers).

    Conventions of the embedding.
    - Python floats are idealised as real numbers ([R]); rounding, overflow
      and NaN are outside the model.
    - A Python exception is a value of [exn]; a call that may raise returns
      a [result].
    - A [dict] with string keys is a [gmap string _]; a comprehension or a
      loop that assigns keys in order is a left fold of inserts, so that a
      later assignment to the same key replaces an earlier one.
    - A one-dimensional [numpy] array of floats is a [list R]. *)

From Stdlib Require Import Reals Lra.
From stdpp Require Import gmap strings list.

#[local] Open Scope R_scope.

(** ** Python exceptions and results *)

Inductive exn_class : Set :=
| ValueError
| LabelError
| KeyError
| ZeroDivisionError
| TypeError
| IndexError.

Record exn : Set := Exn { exn_kind : exn_class; exn_msg : string }.

Inductive result (A : Type) : Type :=
| Ok (a : A)
| Raise (e : exn).
Arguments Ok {A} a.
Arguments Raise {A} e.

#[global] Instance result_ret : MRet result := fun A a => Ok a.
#[global] Instance result_bind : MBind result := fun A B f c =>
  match c with
  | Ok a => f a
  | Raise e => Raise e
  end.

Definition is_Ok {A} (r : result A) : Prop := exists a, r = Ok a.

#[global] Instance R_eq_dec : EqDecision R := Req_dec_T.

(** The double-quote character, used inside f-string messages. *)
Definition dquote : string := String (Ascii.ascii_of_nat 34) EmptyString.

(** ** Python and numpy primitives used by the source *)

(** [sum(xs)]: starts from [0] and adds left to right. *)
Definition py_sum (xs : list R) : R := fold_left Rplus xs 0.

(** [a / b] on Python floats. *)
Definition py_div (a b : R) : result R :=
  if decide (b = 0) then Raise (Exn ZeroDivisionError "float division by zero")
  else Ok (a / b).

(** [d[k]] on a dict. *)
Definition dict_get {V} (d : gmap string V) (k : string) : result V :=
  match d !! k with
  | Some v => Ok v
  | None => Raise (Exn KeyError k)
  end.

(** [xs[i]] on a list, for a non-negative index. *)
Definition list_get {V} (xs : list V) (i : nat) : result V :=
  match xs !! i with
  | Some v => Ok v
  | None => Raise (Exn IndexError "list index out of range")
  end.

(** A one-dimensional float array. *)
Abbreviation ndarray := (list R).

(** [bool(a)] for an array: empty is false, a single element is tested
    against zero, anything longer has no truth value. *)
Definition ndarray_bool (a : ndarray) : result bool :=
  match a with
  | [] => Ok false
  | [v] => Ok (bool_decide (v <> 0))
  | _ => Raise (Exn ValueError
           "The truth value of an array with more than one element is ambiguous. Use a.any() or a.all()")
  end.

(** Truth value of an [Optional[np.ndarray]] in [if scaling:]. *)
Definition optional_ndarray_bool (a : option ndarray) : result bool :=
  match a with
  | None => Ok false
  | Some a => ndarray_bool a
  end.

(** [np.ones_like(xs, dtype=float)] for a flat list. *)
Definition ones_like {A} (xs : list A) : ndarray := replicate (length xs) 1.

(** [float(a)] for an array: only a single-element array converts (numpy
    raises [TypeError] for any other size). *)
Definition float_of_ndarray (a : ndarray) : result R :=
  match a with
  | [v] => Ok v
  | _ => Raise (Exn TypeError "only length-1 arrays can be converted to Python scalars")
  end.

(** ** Collaborating classes (declared outside [site.py]) *)

Module DefectSpecies.
Record t : Type := Build {
  label : string;
  valence : R;
  mole_fraction : R;
  mobility : R;
  can_equilibrate : bool
}.
End DefectSpecies.

(** [DefectAtSite]: the fields that [Site.__init__] passes to its
    constructor.  The back-reference [site=self] is not read by any method
    of [Site] and is left out. *)
Module DefectAtSite.
Record t : Type := Build {
  label : string;
  valence : R;
  mole_fraction : R;
  mobility : R;
  energy : R;
  can_equilibrate : bool
}.
End DefectAtSite.

Module DefectData.
Record t : Type := Build { label : string; energy : R }.
End DefectData.

Module SiteData.
Record t : Type := Build {
  label : string;
  x : R;
  valence : R;
  defect_data : list DefectData.t
}.
End SiteData.

(** [GridPoint]: only its method [average_site_energy] is called. *)
Module GridPoint.
Record t : Type := Build {
  average_site_energy : string -> result ndarray
}.
End GridPoint.

(** A raised warning: category and message. *)
Inductive warning_category : Set := DeprecationWarning.
Record warning : Set := Warning { w_category : warning_category; w_msg : string }.

(** Values that may be passed as keyword arguments. *)
Inductive py_value : Type :=
| PyNone
| PyFloat (r : R)
| PyArray (a : ndarray)
| PyStr (s : string).

(** ** The [Site] class *)

Module Site.
Record t : Type := Build {
  label : string;
  x : R;
  defect_energies : list R;
  defect_species : list DefectSpecies.t;
  defects : list DefectAtSite.t;
  scaling : ndarray;
  grid_point : option GridPoint.t;
  valence : R;
  saturation_parameter : R;
  fixed_defects : list DefectAtSite.t;
  mobile_defects : list DefectAtSite.t;
  alpha : R;
  fixed_charge : R
}.

(** [self.fixed_charge = ...]: the one attribute assigned after a method
    has already read [self]. *)
Definition set_fixed_charge (self : t) (v : R) : t :=
  Build (label self) (x self) (defect_energies self) (defect_species self)
        (defects self) (scaling self) (grid_point self) (valence self)
        (saturation_parameter self) (fixed_defects self)
        (mobile_defects self) (alpha self) v.

(** [self.grid_point = gp], done by the code that owns the grid. *)
Definition set_grid_point (self : t) (gp : option GridPoint.t) : t :=
  Build (label self) (x self) (defect_energies self) (defect_species self)
        (defects self) (scaling self) gp (valence self)
        (saturation_parameter self) (fixed_defects self)
        (mobile_defects self) (alpha self) (fixed_charge self).

(** The same site with another [scaling] attribute. *)
Definition set_scaling (self : t) (a : ndarray) : t :=
  Build (label self) (x self) (defect_energies self) (defect_species self)
        (defects self) a (grid_point self) (valence self)
        (saturation_parameter self) (fixed_defects self)
        (mobile_defects self) (alpha self) (fixed_charge self).

Section Methods.
(** [pyscses.constants.fundamental_charge] and the method
    [DefectAtSite.boltzmann_factor] are defined outside [site.py]. *)
Variable fundamental_charge : R.
Variable boltzmann_factor : DefectAtSite.t -> R -> R -> R.

Definition make_defect (d : DefectSpecies.t) (e : R) : DefectAtSite.t :=
  DefectAtSite.Build (DefectSpecies.label d) (DefectSpecies.valence d)
                     (DefectSpecies.mole_fraction d)
                     (DefectSpecies.mobility d) e
                     (DefectSpecies.can_equilibrate d).

Definition calculate_fixed_charge (self : t) : R :=
  let fixed_charge :=
    fold_left (fun acc defect =>
                 if negb (DefectAtSite.can_equilibrate defect)
                 then acc + DefectAtSite.mole_fraction defect
                            * DefectAtSite.valence defect
                 else acc)
              (defects self) (valence self) in
  fixed_charge * fundamental_charge.

(** The constructor.  [if scaling:] is evaluated twice (before the length
    check and before the assignment of [self.scaling]); both evaluations
    are kept. *)
Definition __init__ (label : string) (x : R)
    (defect_species : list DefectSpecies.t) (defect_energies : list R)
    (scaling : option ndarray) (valence : R) (saturation_parameter : R)
  : result t :=
  if negb (length defect_species =? length defect_energies)%nat
  then Raise (Exn ValueError
                "len(defect_species) must be equal to len(defect_energies)")
  else
    given ← optional_ndarray_bool scaling;
    _ ← (match scaling with
         | Some a =>
             if given && negb (length defect_species =? length a)%nat
             then Raise (Exn ValueError
                    "len(defect_species) must be equal to len(scaling)")
             else Ok tt
         | None => Ok tt
         end);
    let defects := zip_with make_defect defect_species defect_energies in
    given_again ← optional_ndarray_bool scaling;
    let scaling_attr :=
      match scaling with
      | Some a => if (given_again : bool) then a else ones_like defect_energies
      | None => ones_like defect_energies
      end in
    let fixed_defects :=
      filter (fun d => DefectAtSite.can_equilibrate d = false) defects in
    let mobile_defects :=
      filter (fun d => DefectAtSite.can_equilibrate d = true) defects in
    let alpha :=
      saturation_parameter
      - py_sum (DefectAtSite.mole_fraction <$> fixed_defects) in
    let self :=
      Build label x defect_energies defect_species defects scaling_attr
            None valence saturation_parameter fixed_defects
            mobile_defects alpha 0 in
    Ok (set_fixed_charge self (calculate_fixed_charge self)).

Definition defect_with_label (self : t) (label : string)
  : result DefectAtSite.t :=
  match List.find (fun d => bool_decide (DefectAtSite.label d = label))
                  (defects self) with
  | None => Raise (Exn LabelError
             (dquote +:+ label +:+ dquote +:+
              " does not match any of the defect species labels for this site."))
  | Some d => Ok d
  end.

Definition energies (self : t) : list R :=
  DefectAtSite.energy <$> defects self.

Definition average_local_energy (self : t) (method : string)
  : result ndarray :=
  match grid_point self with
  | Some gp => GridPoint.average_site_energy gp method
  | None => Raise (Exn ValueError "TODO")
  end.

(** [{d.label: d.boltzmann_factor(phi, temp) for d in self.mobile_defects}] *)
Definition boltzmann_factors (self : t) (phi temp : R) : gmap string R :=
  fold_left (fun m d => <[DefectAtSite.label d := boltzmann_factor d phi temp]> m)
            (mobile_defects self) ∅.

(** [self.alpha + sum([d.mole_fraction * (boltzmann_factors[d.label] - 1.0) ...])] *)
Definition denominator (self : t) (phi temp : R) : result R :=
  terms ← mapM (fun d =>
                  bf ← dict_get (boltzmann_factors self phi temp)
                                (DefectAtSite.label d);
                  mret (DefectAtSite.mole_fraction d * (bf - 1)))
               (mobile_defects self);
  mret (alpha self + py_sum terms).

(** The loop [for defect in self.defects: ...] of [probabilities]. *)
Fixpoint probabilities_loop (self : t) (boltzmann_factors : gmap string R)
    (denominator : R) (ds : list DefectAtSite.t)
    (probabilities_dict : gmap string R) : result (gmap string R) :=
  match ds with
  | [] => Ok probabilities_dict
  | defect :: rest =>
      if negb (DefectAtSite.can_equilibrate defect)
      then probabilities_loop self boltzmann_factors denominator rest
             (<[DefectAtSite.label defect := DefectAtSite.mole_fraction defect]>
                probabilities_dict)
      else
        bf ← dict_get boltzmann_factors (DefectAtSite.label defect);
        let numerator := alpha self * DefectAtSite.mole_fraction defect * bf in
        p ← py_div numerator denominator;
        probabilities_loop self boltzmann_factors denominator rest
          (<[DefectAtSite.label defect := p]> probabilities_dict)
  end.

Definition probabilities (self : t) (phi temp : R)
  : result (gmap string R) :=
  let boltzmann_factors := boltzmann_factors self phi temp in
  denominator ← denominator self phi temp;
  probabilities_loop self boltzmann_factors denominator (defects self) ∅.

(** The loop of [mobile_defect_probabilities]: fixed species are skipped. *)
Fixpoint mobile_probabilities_loop (self : t)
    (boltzmann_factors : gmap string R) (denominator : R)
    (ds : list DefectAtSite.t) (probabilities_dict : gmap string R)
  : result (gmap string R) :=
  match ds with
  | [] => Ok probabilities_dict
  | defect :: rest =>
      if DefectAtSite.can_equilibrate defect
      then
        bf ← dict_get boltzmann_factors (DefectAtSite.label defect);
        let numerator := alpha self * DefectAtSite.mole_fraction defect * bf in
        p ← py_div numerator denominator;
        mobile_probabilities_loop self boltzmann_factors denominator rest
          (<[DefectAtSite.label defect := p]> probabilities_dict)
      else mobile_probabilities_loop self boltzmann_factors denominator
             rest probabilities_dict
  end.

Definition mobile_defect_probabilities (self : t) (phi temp : R)
  : result (gmap string R) :=
  let boltzmann_factors := boltzmann_factors self phi temp in
  denominator ← denominator self phi temp;
  mobile_probabilities_loop self boltzmann_factors denominator
                            (defects self) ∅.

Definition deprecation_notice : warning :=
  Warning DeprecationWarning
    "Site.probabilities_as_list() is deprecated and targeted for removal. Please use Site.probabilities() instead.".

(** The first component is what [warnings.warn] was called with, the
    second is the outcome of the body that follows the call. *)
Definition probabilities_as_list (self : t) (phi temp : R)
  : list warning * result (list R) :=
  ([deprecation_notice],
   probabilities_dict ← probabilities self phi temp;
   mapM (fun d => dict_get probabilities_dict (DefectAtSite.label d))
        (defects self)).

Definition defect_valences (self : t) : ndarray :=
  DefectAtSite.valence <$> defects self.

(** [sum([probs[d.label] * d.valence for d in self.defects])] *)
Definition weighted_valences (probs : gmap string R)
    (ds : list DefectAtSite.t) : result R :=
  terms ← mapM (fun d =>
                  p ← dict_get probs (DefectAtSite.label d);
                  mret (p * DefectAtSite.valence d)) ds;
  mret (py_sum terms).

Definition charge (self : t) (phi temp : R) : result R :=
  defect_probabilities ← probabilities self phi temp;
  total ← weighted_valences defect_probabilities (defects self);
  let charge := (fun s => total * s) <$> scaling self in
  let charge := (fun c => c + valence self) <$> charge in
  let charge := (fun c => c * fundamental_charge) <$> charge in
  float_of_ndarray charge.

Definition charge_from_mobile_defects (self : t) (phi temp : R)
  : result R :=
  mobile_defect_probabilities ← mobile_defect_probabilities self phi temp;
  total ← weighted_valences mobile_defect_probabilities (defects self);
  let charge := (fun s => total * s) <$> scaling self in
  let charge := (fun c => c * fundamental_charge) <$> charge in
  float_of_ndarray charge.

(** [{d.label for d in site_data.defect_data}] *)
Definition defect_species_labels (site_data : SiteData.t) : gset string :=
  list_to_set (DefectData.label <$> SiteData.defect_data site_data).

(** [[ds for ds in defect_species if ds.label in defect_species_labels]] *)
Definition defect_species_to_pass (site_data : SiteData.t)
    (defect_species : list DefectSpecies.t) : list DefectSpecies.t :=
  filter (fun ds => DefectSpecies.label ds ∈ defect_species_labels site_data)
         defect_species.

(** [from_site_data]: a Python [set] is iterated in an unspecified
    order; the model walks [elements], which only affects which missing
    label the error message names. *)
Definition from_site_data (site_data : SiteData.t)
    (defect_species : list DefectSpecies.t)
    (kwargs : gmap string py_value) : result t :=
  let defect_species_labels := defect_species_labels site_data in
  let defect_species_to_pass :=
    defect_species_to_pass site_data defect_species in
  let defect_species_to_pass_labels : gset string :=
    list_to_set (DefectSpecies.label <$> defect_species_to_pass) in
  match List.find (fun l => bool_decide (l ∉ defect_species_to_pass_labels))
                  (elements defect_species_labels) with
  | Some l =>
      Raise (Exn ValueError
               ("Could not find " +:+ dquote +:+ l +:+ dquote +:+
                " in the passed list of defect species."))
  | None =>
      __init__ (SiteData.label site_data) (SiteData.x site_data)
               defect_species_to_pass
               (DefectData.energy <$> SiteData.defect_data site_data)
               None (SiteData.valence site_data) 1
  end.
End Methods.
End Site.

(** ** [practice.py]: nearest grid index *)

(** [bisect.bisect_left(a, x)]: the loop
    [while lo < hi: mid = (lo + hi) // 2; if a[mid] < x: lo = mid + 1 else: hi = mid].
    Every iteration shrinks [hi - lo], so [length a] rounds always suffice. *)
Fixpoint bisect_loop (fuel : nat) (a : list R) (x : R) (lo hi : nat) : nat :=
  match fuel with
  | O => lo
  | S fuel' =>
      if (lo <? hi)%nat then
        let mid := ((lo + hi) / 2)%nat in
        match a !! mid with
        | Some v =>
            if Rlt_dec v x then bisect_loop fuel' a x (mid + 1)%nat hi
            else bisect_loop fuel' a x lo mid
        | None => lo
        end
      else lo
  end.

Definition bisect_left (a : list R) (x : R) : nat :=
  bisect_loop (length a) a x 0%nat (length a).

Definition closest_index (myList : list R) (myNumber : R) : result nat :=
  let pos := bisect_left myList myNumber in
  if (pos =? 0)%nat then Ok 0%nat
  else if (pos =? length myList)%nat then Ok (length myList)
  else
    before ← list_get myList (pos - 1)%nat;
    after ← list_get myList pos;
    if Rlt_dec (after - myNumber) (myNumber - before)
    then Ok pos
    else Ok (pos - 1)%nat.

Definition index_of_grid_at_x (grid : list R) (x : R) : result nat :=
  closest_index grid x.

Definition phi_at_x (phi grid : list R) (x : R) : result R :=
  index ← index_of_grid_at_x grid x;
  list_get phi index.

(** Modelled from the spec: [DefectAtSite.boltzmann_factor], whose module
    [pyscses/defect_at_site.py] is not among the sources.  Spec 4.1:
    "Computes exp(-(energy + valence * fundamental_charge * phi) /
    (boltzmann_eV * temp))", a pure function of the instance's fields and
    of the two inputs. *)
Definition boltzmann_factor (fundamental_charge boltzmann_eV : R)
    (d : DefectAtSite.t) (phi temp : R) : R :=
  exp (- (DefectAtSite.energy d
          + DefectAtSite.valence d * fundamental_charge * phi)
       / (boltzmann_eV * temp)).

(** Values of the two physical constants used to instantiate the worked
    examples below (coulomb, and electron-volt per kelvin). *)
Definition fundamental_charge_SI : R := 1.6021766208e-19.
Definition boltzmann_eV_SI : R := 8.6173324e-5.

(** ** Predicates used in the statements *)

(** Species labels are unique within the site. *)
Definition unique_labels (s : Site.t) : Prop :=
  NoDup (DefectAtSite.label <$> Site.defects s).

(** A site-data record and a species list fit together: no label occurs
    twice on either side, and every label of the record names a species of
    the list. *)
Definition compatible (site_data : SiteData.t)
    (defect_species : list DefectSpecies.t) : Prop :=
  NoDup (DefectData.label <$> SiteData.defect_data site_data)
  /\ NoDup (DefectSpecies.label <$> defect_species)
  /\ forall l, l ∈ (DefectData.label <$> SiteData.defect_data site_data) ->
               l ∈ (DefectSpecies.label <$> defect_species).

(** The grid is in non-decreasing order. *)
Definition sorted (l : list R) : Prop :=
  forall (i j : nat) (a b : R),
    (i <= j)%nat -> l !! i = Some a -> l !! j = Some b -> a <= b.

(** Sum of a list of reals, right to left. *)
Definition Rsum (xs : list R) : R := foldr Rplus 0 xs.

(** The occupation formulas as the specification words them (4.3), over the
    defects of a site; [bf d] is the Boltzmann factor of [d] at the
    conditions of interest. *)
Definition fixed_species (s : Site.t) : list DefectAtSite.t :=
  filter (fun d => DefectAtSite.can_equilibrate d = false) (Site.defects s).

Definition mobile_species (s : Site.t) : list DefectAtSite.t :=
  filter (fun d => DefectAtSite.can_equilibrate d = true) (Site.defects s).

Definition spec_alpha (s : Site.t) : R :=
  Site.saturation_parameter s
  - Rsum (DefectAtSite.mole_fraction <$> fixed_species s).

Definition spec_denominator (bf : DefectAtSite.t -> R) (s : Site.t) : R :=
  spec_alpha s
  + Rsum ((fun d => DefectAtSite.mole_fraction d * (bf d - 1))
            <$> mobile_species s).

Definition spec_probability (bf : DefectAtSite.t -> R) (s : Site.t)
    (d : DefectAtSite.t) : R :=
  if DefectAtSite.can_equilibrate d
  then spec_alpha s * DefectAtSite.mole_fraction d * bf d / spec_denominator bf s
  else DefectAtSite.mole_fraction d.

(** [sum over all defects of probability(d) * valence(d)], reading the
    probability of [d] from the mapping [p] under the label of [d]. *)
Definition valence_sum (p : gmap string R) (ds : list DefectAtSite.t) : R :=
  Rsum ((fun d => default 0 (p !! DefectAtSite.label d) * DefectAtSite.valence d)
          <$> ds).

(** ** Worked examples

    Species [A] and [B] are those of the specification's worked example
    (section 8); [C] is a second mobile species.  Each site below is spelled
    out attribute by attribute; the lemmas [init_*] further down show that
    it is what the constructor builds. *)

Definition species_A : DefectSpecies.t := DefectSpecies.Build "A" 1 0.1 1 true.
Definition species_B : DefectSpecies.t := DefectSpecies.Build "B" (-1) 0.05 1 false.
Definition species_C : DefectSpecies.t := DefectSpecies.Build "C" 1 0.1 1 true.

(** The constants and the Boltzmann factor used in the examples. *)
Definition bf_SI : DefectAtSite.t -> R -> R -> R :=
  boltzmann_factor fundamental_charge_SI boltzmann_eV_SI.

(** [Site("O", 0.0, [A, B], [-0.5, 0.0])]: the worked example. *)
Definition site_AB : Site.t :=
  Site.Build "O" 0 [-0.5; 0] [species_A; species_B]
    [Site.make_defect species_A (-0.5); Site.make_defect species_B 0]
    [1; 1] None 0 1
    [Site.make_defect species_B 0] [Site.make_defect species_A (-0.5)]
    (1 - py_sum [0.05])
    ((0 + 0.05 * -1) * fundamental_charge_SI).

(** [Site("O", 0.0, [B], [0.0])]: a single fixed species. *)
Definition site_B : Site.t :=
  Site.Build "O" 0 [0] [species_B] [Site.make_defect species_B 0]
    [1] None 0 1 [Site.make_defect species_B 0] []
    (1 - py_sum [0.05])
    ((0 + 0.05 * -1) * fundamental_charge_SI).

(** [Site("O", 0.0, [B], [0.0], scaling=np.array([k]), valence=1.0)]. *)
Definition site_B_scaled (k : R) : Site.t :=
  Site.Build "O" 0 [0] [species_B] [Site.make_defect species_B 0]
    [k] None 1 1 [Site.make_defect species_B 0] []
    (1 - py_sum [0.05])
    ((1 + 0.05 * -1) * fundamental_charge_SI).

(** [Site("O", 0.0, [A], [0.0])]: a single mobile species of zero energy. *)
Definition site_A : Site.t :=
  Site.Build "O" 0 [0] [species_A] [Site.make_defect species_A 0]
    [1] None 0 1 [] [Site.make_defect species_A 0]
    (1 - py_sum [])
    (0 * fundamental_charge_SI).

(** [Site("O", 0.0, [A, C], [0.0, 1.0])]: two mobile species, the first of
    zero energy. *)
Definition site_AC : Site.t :=
  Site.Build "O" 0 [0; 1] [species_A; species_C]
    [Site.make_defect species_A 0; Site.make_defect species_C 1]
    [1; 1] None 0 1
    [] [Site.make_defect species_A 0; Site.make_defect species_C 1]
    (1 - py_sum [])
    (0 * fundamental_charge_SI).

(** A site-data record for one [B] defect, and keyword arguments that a
    caller might hope to have forwarded. *)
Definition site_data_B : SiteData.t :=
  SiteData.Build "O" 0 1 [DefectData.Build "B" 0].

Definition kwargs_example : gmap string py_value :=
  <["saturation_parameter" := PyFloat 0.5]> (<["scaling" := PyArray [2]]> ∅).

(** ** Further predicates

    Used by the results on the rest of [site.py] and [practice.py]. *)

(** The [scaling] arguments that [__init__] lets through for [n] species:
    none, an empty array, a single zero, or a single entry when [n = 1]. *)
Definition scaling_accepted (n : nat) (scaling : option ndarray) : Prop :=
  match scaling with
  | None => True
  | Some [] => True
  | Some [v] => v = 0 \/ n = 1%nat
  | Some _ => False
  end.

(** The sum, over the defects [ds], of the entries that the mapping [p]
    holds under their labels. *)
Definition occupation_sum (p : gmap string R) (ds : list DefectAtSite.t) : R :=
  Rsum ((fun d => default 0 (p !! DefectAtSite.label d)) <$> ds).

(** ** Proof automation for the worked examples *)

(** Decide the equalities between booleans left by a [filter] on a
    concrete list. *)
Ltac run_filters :=
  repeat (case_decide; try discriminate; try congruence); cbn.

(** Run [charge] on a concrete site whose mapping is a single insertion. *)
Ltac run_charge :=
  cbn; unfold dict_get; rewrite ?lookup_insert_eq; cbn.

(** ** Results about [practice.py] *)

Section Bisect.
Variables (a : list R) (x : R).
Hypothesis all_below : forall v, v ∈ a -> v < x.

(** When every element is smaller than [x] the search only ever moves
    [lo] to the right, and stops at [hi]. *)
Lemma bisect_loop_all_below fuel lo hi :
  (lo <= hi)%nat -> (hi <= length a)%nat -> (hi - lo <= fuel)%nat ->
  bisect_loop fuel a x lo hi = hi.
Proof.
  revert lo. induction fuel as [|fuel IH]; intros lo Hlo Hhi Hfuel.
  - simpl. lia.
  - cbn [bisect_loop]. destruct (Nat.ltb_spec lo hi) as [Hlt|Hge]; [|lia].
    assert (Hmid : ((lo + hi) / 2 < hi)%nat).
    { apply Nat.Div0.div_lt_upper_bound. lia. }
    assert (Hmid' : (lo <= (lo + hi) / 2)%nat).
    { apply Nat.div_le_lower_bound; lia. }
    destruct (lookup_lt_is_Some_2 a ((lo + hi) / 2)) as [v Hv]; [lia|].
    rewrite Hv.
    destruct (Rlt_dec v x) as [_|Hnlt].
    + apply IH; lia.
    + exfalso. apply Hnlt, all_below. eapply list_elem_of_lookup_2, Hv.
Qed.

Lemma bisect_left_all_below : bisect_left a x = length a.
Proof. unfold bisect_left. apply bisect_loop_all_below; lia. Qed.
End Bisect.

Section BisectSorted.
Variables (a : list R) (x : R).
Hypothesis a_sorted : sorted a.

(** The search keeps every position left of [lo] below [x], and never
    moves past [hi]. *)
Lemma bisect_loop_below fuel lo hi :
  (lo <= hi)%nat -> (hi <= length a)%nat ->
  (forall i v, (i < lo)%nat -> a !! i = Some v -> v < x) ->
  (bisect_loop fuel a x lo hi <= hi)%nat
  /\ forall i v, (i < bisect_loop fuel a x lo hi)%nat -> a !! i = Some v -> v < x.
Proof.
  revert lo hi. induction fuel as [|fuel IH]; intros lo hi Hlo Hhi Hinv.
  - simpl. split; [lia|done].
  - cbn [bisect_loop]. destruct (Nat.ltb_spec lo hi) as [Hlt|Hge]; [|split; [lia|done]].
    assert (Hmid : ((lo + hi) / 2 < hi)%nat).
    { apply Nat.Div0.div_lt_upper_bound. lia. }
    assert (Hmid' : (lo <= (lo + hi) / 2)%nat).
    { apply Nat.div_le_lower_bound; lia. }
    destruct (a !! ((lo + hi) / 2)%nat) as [v|] eqn:Hv; [|split; [lia|done]].
    destruct (Rlt_dec v x) as [Hvx|Hvx].
    + apply IH; [lia|lia|].
      intros i w Hi Hw. apply Rle_lt_trans with v; [|done].
      apply (a_sorted i ((lo + hi) / 2)%nat); [lia|done|done].
    + destruct (IH lo ((lo + hi) / 2)%nat) as [Hle Hbelow]; [lia|lia|done|].
      split; [lia|done].
Qed.

(** If some grid value is at least [x], the insertion point is a valid
    position of the grid. *)
Lemma bisect_left_in_range v :
  v ∈ a -> x <= v -> (bisect_left a x < length a)%nat.
Proof.
  intros Hv Hxv. unfold bisect_left.
  destruct (bisect_loop_below (length a) 0 (length a)) as [Hle Hbelow];
    [lia|lia|intros; lia|].
  destruct (decide (bisect_loop (length a) a x 0 (length a) = length a))
    as [Heq|Hne]; [|lia].
  exfalso. apply list_elem_of_lookup in Hv as [i Hi].
  pose proof (lookup_lt_Some _ _ _ Hi) as Hlt.
  rewrite <- Heq in Hlt. pose proof (Hbelow i v Hlt Hi). lra.
Qed.

(** The out-of-range result is confined to [x] above every grid value:
    otherwise [closest_index] returns a valid position. *)
Lemma closest_index_in_range v :
  v ∈ a -> x <= v ->
  exists i, closest_index a x = Ok i /\ (i < length a)%nat.
Proof.
  intros Hv Hxv. pose proof (bisect_left_in_range v Hv Hxv) as Hpos.
  unfold closest_index.
  destruct (Nat.eqb_spec (bisect_left a x) 0) as [H0|H0].
  - exists 0%nat. split; [done|lia].
  - destruct (Nat.eqb_spec (bisect_left a x) (length a)) as [Hl|Hl]; [lia|].
    unfold list_get.
    destruct (lookup_lt_is_Some_2 a (bisect_left a x - 1)) as [before Hb]; [lia|].
    destruct (lookup_lt_is_Some_2 a (bisect_left a x)) as [after Ha]; [lia|].
    rewrite Hb, Ha. cbn.
    destruct (Rlt_dec (after - x) (x - before)); eexists; (split; [done|lia]).
Qed.
End BisectSorted.

(** C9. [closest_index] does not always return a valid index: whenever the
    grid is non-empty and [x] lies above every grid value it returns
    [len(grid)], one past the last position, and [phi_at_x] then raises
    [IndexError] for every [phi] of the same length as the grid. *)
Theorem closest_index_past_the_end (grid phi : list R) (x : R) :
  grid <> [] ->
  (forall v, v ∈ grid -> v < x) ->
  closest_index grid x = Ok (length grid)
  /\ (length phi = length grid ->
      phi_at_x phi grid x = Raise (Exn IndexError "list index out of range")).
Proof.
  intros Hne Hbelow.
  assert (Hci : closest_index grid x = Ok (length grid)).
  { unfold closest_index. rewrite bisect_left_all_below by assumption.
    destruct grid as [|g grid']; [congruence|].
    simpl length. rewrite Nat.eqb_refl. reflexivity. }
  split; [exact Hci|].
  intros Hlen. unfold phi_at_x, index_of_grid_at_x. rewrite Hci. simpl.
  unfold list_get. rewrite lookup_ge_None_2 by lia. reflexivity.
Qed.

(** At [grid = [1]], [x = 2], [phi = [5]]. *)
Lemma closest_index_past_the_end_witness :
  closest_index [1] 2 = Ok 1%nat
  /\ phi_at_x [5] [1] 2 = Raise (Exn IndexError "list index out of range").
Proof.
  destruct (closest_index_past_the_end [1] [5] 2) as [H1 H2].
  - discriminate.
  - intros v Hv. apply list_elem_of_singleton in Hv. subst v. lra.
  - split; [exact H1 | apply H2; reflexivity].
Defined.

(** ** General lemmas *)

Lemma py_sum_from (xs : list R) (acc : R) :
  fold_left Rplus xs acc = acc + Rsum xs.
Proof.
  revert acc. induction xs as [|v xs IH]; intros acc; simpl.
  - lra.
  - rewrite IH. lra.
Qed.

Lemma py_sum_Rsum (xs : list R) : py_sum xs = Rsum xs.
Proof. unfold py_sum. rewrite py_sum_from. lra. Qed.

Lemma find_none_intro {A} (f : A -> bool) (l : list A) :
  (forall v, v ∈ l -> f v = false) -> List.find f l = None.
Proof.
  induction l as [|v l IH]; intros Hall; simpl; [reflexivity|].
  rewrite (Hall v) by left. apply IH. intros w Hw. apply Hall. by right.
Qed.

Lemma NoDup_fmap_elem_inj {A B} (f : A -> B) (l : list A) (v w : A) :
  NoDup (f <$> l) -> v ∈ l -> w ∈ l -> f v = f w -> v = w.
Proof.
  induction l as [|u l IH]; intros Hnd Hv Hw Heq.
  - by apply elem_of_nil in Hv.
  - rewrite fmap_cons in Hnd. apply NoDup_cons in Hnd as [Hu Hnd].
    apply elem_of_cons in Hv as [->|Hv]; apply elem_of_cons in Hw as [->|Hw].
    + reflexivity.
    + exfalso. apply Hu. rewrite Heq. by apply list_elem_of_fmap_2.
    + exfalso. apply Hu. rewrite <- Heq. by apply list_elem_of_fmap_2.
    + by apply IH.
Qed.

(** ** Construction *)

Section Construction.
Variable fundamental_charge : R.

(** What a successful [__init__] leaves in the attributes. *)
Lemma init_inv label x species energies scaling valence sat s :
  Site.__init__ fundamental_charge label x species energies scaling valence sat = Ok s ->
  length species = length energies
  /\ Site.defects s = zip_with Site.make_defect species energies
  /\ Site.fixed_defects s
     = filter (fun d => DefectAtSite.can_equilibrate d = false) (Site.defects s)
  /\ Site.mobile_defects s
     = filter (fun d => DefectAtSite.can_equilibrate d = true) (Site.defects s)
  /\ Site.alpha s
     = sat - py_sum (DefectAtSite.mole_fraction <$> Site.fixed_defects s)
  /\ Site.valence s = valence
  /\ Site.saturation_parameter s = sat
  /\ Site.grid_point s = None
  /\ Site.fixed_charge s = Site.calculate_fixed_charge fundamental_charge s
  /\ length (Site.scaling s) = length (Site.defects s).
Proof.
  unfold Site.__init__.
  destruct (Nat.eqb_spec (length species) (length energies)) as [Hlen|Hlen];
    [|discriminate].
  cbn [negb].
  assert (Hzip : length (zip_with Site.make_defect species energies)
                 = length energies).
  { rewrite length_zip_with. lia. }
  destruct scaling as [a|]; cbn.
  - destruct (ndarray_bool a) as [given|e]; cbn; [|discriminate].
    destruct given; cbn.
    + destruct (Nat.eqb_spec (length species) (length a)) as [Hla|Hla];
        cbn; [|discriminate].
      intros [= <-]. cbn. repeat split; try done. lia.
    + intros [= <-]. cbn. repeat split; try done.
      unfold ones_like. rewrite length_replicate. lia.
  - intros [= <-]. cbn. repeat split; try done.
    unfold ones_like. rewrite length_replicate. lia.
Qed.

(** Without a [scaling] argument the constructor succeeds exactly when
    the two lists have the same length, and installs the all-ones array. *)
Lemma init_default_scaling label x species energies valence sat :
  length species = length energies ->
  exists s,
    Site.__init__ fundamental_charge label x species energies None valence sat = Ok s
    /\ Site.scaling s = replicate (length energies) 1
    /\ Site.saturation_parameter s = sat
    /\ Site.valence s = valence.
Proof.
  intros Hlen. unfold Site.__init__.
  rewrite (proj2 (Nat.eqb_eq _ _) Hlen). cbn.
  eexists. split; [reflexivity|]. cbn. done.
Qed.

Lemma init_length_mismatch label x species energies scaling valence sat :
  length species <> length energies ->
  Site.__init__ fundamental_charge label x species energies scaling valence sat
  = Raise (Exn ValueError
             "len(defect_species) must be equal to len(defect_energies)").
Proof.
  intros Hlen. unfold Site.__init__.
  by destruct (Nat.eqb_spec (length species) (length energies)).
Qed.
End Construction.

Section FromSiteData.
Variable fundamental_charge : R.
Variables (site_data : SiteData.t) (defect_species : list DefectSpecies.t).
Hypothesis Hcompatible : compatible site_data defect_species.

Lemma defect_species_to_pass_labels l :
  l ∈ (DefectSpecies.label <$> Site.defect_species_to_pass site_data defect_species)
  <-> l ∈ (DefectData.label <$> SiteData.defect_data site_data).
Proof.
  destruct Hcompatible as (_ & _ & Hsub).
  unfold Site.defect_species_to_pass, Site.defect_species_labels. split.
  - intros (ds & -> & Hds)%list_elem_of_fmap.
    apply list_elem_of_filter in Hds as [Hin _].
    by apply elem_of_list_to_set in Hin.
  - intros Hl. pose proof (Hsub l Hl) as Hin.
    apply list_elem_of_fmap in Hin as (ds & -> & Hds).
    apply list_elem_of_fmap_2, list_elem_of_filter. split; [|done].
    by apply elem_of_list_to_set.
Qed.

(** Exactly one species is selected per entry of the record. *)
Lemma defect_species_to_pass_length :
  length (Site.defect_species_to_pass site_data defect_species)
  = length (SiteData.defect_data site_data).
Proof.
  destruct Hcompatible as (Hnd_data & Hnd_species & _).
  assert (Hnd : NoDup (DefectSpecies.label
                         <$> Site.defect_species_to_pass site_data defect_species)).
  { apply NoDup_fmap_2_strong.
    - intros v w Hv%list_elem_of_filter Hw%list_elem_of_filter.
      apply (NoDup_fmap_elem_inj _ defect_species); tauto.
    - apply NoDup_filter. by eapply NoDup_fmap_1. }
  pose proof (NoDup_Permutation _ _ Hnd Hnd_data defect_species_to_pass_labels)
    as Hperm.
  apply Permutation_length in Hperm.
  by rewrite !length_fmap in Hperm.
Qed.

(** No label is reported missing, so the call reaches the constructor. *)
Lemma from_site_data_unfold kwargs :
  Site.from_site_data fundamental_charge site_data defect_species kwargs
  = Site.__init__ fundamental_charge (SiteData.label site_data)
      (SiteData.x site_data)
      (Site.defect_species_to_pass site_data defect_species)
      (DefectData.energy <$> SiteData.defect_data site_data)
      None (SiteData.valence site_data) 1.
Proof.
  unfold Site.from_site_data.
  rewrite find_none_intro; [reflexivity|].
  intros l Hl%elem_of_elements%elem_of_list_to_set.
  apply bool_decide_eq_false. intros Hnot. apply Hnot.
  by apply elem_of_list_to_set, defect_species_to_pass_labels.
Qed.
End FromSiteData.

(** C10. For a site-data record and a compatible species list,
    [Site.from_site_data] returns a site whose [scaling] is the all-ones
    default, whose [saturation_parameter] is [1.0] and whose [valence] is
    the record's, whatever keyword arguments are supplied: the result is
    the one obtained with no keyword arguments at all. *)
Theorem from_site_data_ignores_kwargs (fundamental_charge : R)
    (site_data : SiteData.t) (defect_species : list DefectSpecies.t)
    (kwargs : gmap string py_value) :
  compatible site_data defect_species ->
  exists s,
    Site.from_site_data fundamental_charge site_data defect_species kwargs = Ok s
    /\ Site.scaling s = replicate (length (SiteData.defect_data site_data)) 1
    /\ Site.saturation_parameter s = 1
    /\ Site.valence s = SiteData.valence site_data
    /\ Site.from_site_data fundamental_charge site_data defect_species ∅ = Ok s.
Proof.
  intros Hc.
  destruct (init_default_scaling fundamental_charge (SiteData.label site_data)
              (SiteData.x site_data)
              (Site.defect_species_to_pass site_data defect_species)
              (DefectData.energy <$> SiteData.defect_data site_data)
              (SiteData.valence site_data) 1)
    as (s & Hs & Hsc & Hsat & Hval).
  { rewrite length_fmap. by apply defect_species_to_pass_length. }
  exists s. rewrite !from_site_data_unfold by assumption.
  rewrite length_fmap in Hsc. done.
Qed.

(** ** The error monad and dict-building folds *)

Lemma mapM_result_cons {A B} (f : A -> result B) (v : A) (l : list A) :
  mapM f (v :: l)
  = match f v with
    | Ok y => match mapM f l with Ok k => Ok (y :: k) | Raise e => Raise e end
    | Raise e => Raise e
    end.
Proof. reflexivity. Qed.

Lemma mapM_Ok {A B} (f : A -> result B) (g : A -> B) (l : list A) :
  (forall v, v ∈ l -> f v = Ok (g v)) -> mapM f l = Ok (g <$> l).
Proof.
  induction l as [|v l IH]; intros Hall; [reflexivity|].
  rewrite mapM_result_cons, (Hall v), IH; [reflexivity| |by left].
  intros w Hw. apply Hall. by right.
Qed.

Lemma mapM_Ok_inv {A B} (f : A -> result B) (l : list A) (ys : list B) :
  mapM f l = Ok ys -> Forall2 (fun v y => f v = Ok y) l ys.
Proof.
  revert ys. induction l as [|v l IH]; intros ys.
  - intros [= <-]. constructor.
  - rewrite mapM_result_cons. destruct (f v) as [y|e] eqn:Hv; [|discriminate].
    destruct (mapM f l) as [k|e]; [|discriminate].
    intros [= <-]. constructor; [done|by apply IH].
Qed.

Lemma mapM_Raise_inv {A B} (f : A -> result B) (l : list A) (e : exn) :
  mapM f l = Raise e -> exists v, v ∈ l /\ f v = Raise e.
Proof.
  induction l as [|v l IH]; [discriminate|].
  rewrite mapM_result_cons. destruct (f v) as [y|e'] eqn:Hv.
  - destruct (mapM f l) as [k|e'']; [discriminate|].
    intros [= ->]. destruct IH as (w & Hw & Hfw); [done|].
    exists w. split; [by right|done].
  - intros [= ->]. exists v. split; [by left|done].
Qed.

Lemma mapM_fails {A B} (f : A -> result B) (l : list A) (v : A) (e0 : exn) :
  v ∈ l -> f v = Raise e0 -> exists e, mapM f l = Raise e.
Proof.
  intros Hv Hfv. destruct (mapM f l) as [ys|e] eqn:Hm; [|by eexists].
  apply mapM_Ok_inv in Hm.
  apply list_elem_of_lookup in Hv as [i Hi].
  destruct (Forall2_lookup_l _ _ _ _ _ Hm Hi) as (y & _ & Hy). congruence.
Qed.

Section FoldInsert.
Context {A V : Type} (key : A -> string) (val : A -> V).

Lemma fold_insert_notin (l : list A) (m0 : gmap string V) (k : string) :
  k ∉ (key <$> l) ->
  fold_left (fun m d => <[key d := val d]> m) l m0 !! k = m0 !! k.
Proof.
  revert m0. induction l as [|u l IH]; intros m0 Hk; [reflexivity|].
  rewrite fmap_cons in Hk. apply not_elem_of_cons in Hk as [Hne Hk].
  simpl. rewrite IH by done. by apply lookup_insert_ne.
Qed.

Lemma fold_insert_NoDup (l : list A) (m0 : gmap string V) (d : A) :
  NoDup (key <$> l) -> d ∈ l ->
  fold_left (fun m d => <[key d := val d]> m) l m0 !! key d = Some (val d).
Proof.
  revert m0. induction l as [|u l IH]; intros m0 Hnd Hd.
  - by apply elem_of_nil in Hd.
  - rewrite fmap_cons in Hnd. apply NoDup_cons in Hnd as [Hu Hnd]. simpl.
    apply elem_of_cons in Hd as [->|Hd].
    + rewrite fold_insert_notin by done. apply lookup_insert_eq.
    + by apply IH.
Qed.

Lemma fold_insert_is_Some (l : list A) (m0 : gmap string V) (k : string) :
  is_Some (fold_left (fun m d => <[key d := val d]> m) l m0 !! k)
  <-> is_Some (m0 !! k) \/ k ∈ (key <$> l).
Proof.
  revert m0. induction l as [|u l IH]; intros m0.
  - simpl. rewrite elem_of_nil. tauto.
  - rewrite fmap_cons. cbn [fold_left].
    rewrite IH, elem_of_cons, lookup_insert_is_Some'. clear IH.
    destruct (decide (key u = k)) as [->|Hne]; intuition congruence.
Qed.
End FoldInsert.

Lemma NoDup_fmap_filter {A B} (f : A -> B) (P : A -> Prop)
    `{forall v, Decision (P v)} (l : list A) :
  NoDup (f <$> l) -> NoDup (f <$> filter P l).
Proof.
  intros Hnd. apply NoDup_fmap_2_strong.
  - intros v w Hv%list_elem_of_filter Hw%list_elem_of_filter.
    apply (NoDup_fmap_elem_inj f l); tauto.
  - apply NoDup_filter. by eapply NoDup_fmap_1.
Qed.

(** ** Occupation probabilities *)

Section Probabilities.
Variable fundamental_charge : R.
Variable bf : DefectAtSite.t -> R -> R -> R.
Variables (s : Site.t) (phi temp : R).

(** The Boltzmann-factor dict holds an entry for every mobile defect. *)
Lemma boltzmann_factors_is_Some d :
  d ∈ Site.mobile_defects s ->
  is_Some (Site.boltzmann_factors bf s phi temp !! DefectAtSite.label d).
Proof.
  intros Hd. unfold Site.boltzmann_factors.
  apply (fold_insert_is_Some DefectAtSite.label (fun d => bf d phi temp)).
  right. by apply list_elem_of_fmap_2.
Qed.

Lemma boltzmann_factors_lookup d :
  NoDup (DefectAtSite.label <$> Site.mobile_defects s) ->
  d ∈ Site.mobile_defects s ->
  Site.boltzmann_factors bf s phi temp !! DefectAtSite.label d
  = Some (bf d phi temp).
Proof.
  intros Hnd Hd. unfold Site.boltzmann_factors.
  by apply (fold_insert_NoDup DefectAtSite.label (fun d => bf d phi temp)).
Qed.

(** The denominator never raises: its lookups are all of mobile labels. *)
Lemma denominator_is_Ok : is_Ok (Site.denominator bf s phi temp).
Proof.
  unfold Site.denominator.
  destruct (mapM _ (Site.mobile_defects s)) as [terms|e] eqn:Hm.
  - by eexists.
  - apply mapM_Raise_inv in Hm as (d & Hd & Hraise).
    destruct (boltzmann_factors_is_Some d Hd) as [v Hv].
    unfold dict_get in Hraise. rewrite Hv in Hraise. discriminate.
Qed.

Lemma denominator_value :
  NoDup (DefectAtSite.label <$> Site.mobile_defects s) ->
  Site.denominator bf s phi temp
  = Ok (Site.alpha s
        + Rsum ((fun d => DefectAtSite.mole_fraction d * (bf d phi temp - 1))
                  <$> Site.mobile_defects s)).
Proof.
  intros Hnd. unfold Site.denominator.
  rewrite (mapM_Ok _ (fun d => DefectAtSite.mole_fraction d * (bf d phi temp - 1))).
  - cbn. by rewrite py_sum_Rsum.
  - intros d Hd. unfold dict_get.
    by rewrite boltzmann_factors_lookup.
Qed.
End Probabilities.

Section ProbabilitiesLoop.
Variables (s : Site.t) (bfs : gmap string R) (denom : R).

(** Whatever the attributes hold, a loop that finishes has written one
    entry per defect and touched no other key. *)
Lemma probabilities_loop_keys ds acc p k :
  Site.probabilities_loop s bfs denom ds acc = Ok p ->
  is_Some (p !! k) <-> is_Some (acc !! k) \/ k ∈ (DefectAtSite.label <$> ds).
Proof.
  revert acc. induction ds as [|d ds IH]; intros acc.
  - intros [= <-]. rewrite fmap_nil, elem_of_nil. tauto.
  - rewrite fmap_cons, elem_of_cons. cbn [Site.probabilities_loop].
    destruct (DefectAtSite.can_equilibrate d); cbn [negb].
    + destruct (dict_get bfs (DefectAtSite.label d)) as [b|e]; [|discriminate].
      cbn. destruct (py_div _ denom) as [q|e]; [|discriminate]. cbn.
      intros Hp%IH. rewrite Hp, lookup_insert_is_Some'.
      destruct (decide (DefectAtSite.label d = k)); intuition congruence.
    + intros Hp%IH. rewrite Hp, lookup_insert_is_Some'.
      destruct (decide (DefectAtSite.label d = k)); intuition congruence.
Qed.

(** With every needed Boltzmann factor on hand and a usable denominator,
    the loop is a plain sequence of assignments. *)
Lemma probabilities_loop_Ok (b : DefectAtSite.t -> R) ds acc :
  (forall d, d ∈ ds -> DefectAtSite.can_equilibrate d = true ->
             bfs !! DefectAtSite.label d = Some (b d) /\ denom <> 0) ->
  Site.probabilities_loop s bfs denom ds acc
  = Ok (fold_left
          (fun m d =>
             <[DefectAtSite.label d :=
                 if DefectAtSite.can_equilibrate d
                 then Site.alpha s * DefectAtSite.mole_fraction d * b d / denom
                 else DefectAtSite.mole_fraction d]> m)
          ds acc).
Proof.
  revert acc. induction ds as [|d ds IH]; intros acc Hall; [reflexivity|].
  cbn [Site.probabilities_loop fold_left].
  assert (Hrest : forall d', d' ∈ ds -> DefectAtSite.can_equilibrate d' = true ->
                    bfs !! DefectAtSite.label d' = Some (b d') /\ denom <> 0).
  { intros d' Hd'. apply Hall. by right. }
  destruct (DefectAtSite.can_equilibrate d) eqn:Hmob; cbn [negb].
  - destruct (Hall d) as [Hb Hden]; [by left|done|].
    unfold dict_get, py_div. rewrite Hb. cbn.
    destruct (decide (denom = 0)); [done|]. cbn. by apply IH.
  - by apply IH.
Qed.

(** The loop of [mobile_defect_probabilities] writes mobile labels only. *)
Lemma mobile_probabilities_loop_keys ds acc p k :
  Site.mobile_probabilities_loop s bfs denom ds acc = Ok p ->
  is_Some (p !! k)
  <-> is_Some (acc !! k)
      \/ exists d, d ∈ ds /\ DefectAtSite.can_equilibrate d = true
                   /\ DefectAtSite.label d = k.
Proof.
  revert acc. induction ds as [|d ds IH]; intros acc.
  - intros [= <-]. split; [tauto|].
    intros [?|(d & Hd & _)]; [done|]. by apply elem_of_nil in Hd.
  - cbn [Site.mobile_probabilities_loop].
    destruct (DefectAtSite.can_equilibrate d) eqn:Hmob.
    + destruct (dict_get bfs (DefectAtSite.label d)) as [b|e]; [|discriminate].
      cbn. destruct (py_div _ denom) as [q|e]; [|discriminate]. cbn.
      intros Hp%IH. rewrite Hp, lookup_insert_is_Some'. split.
      * intros [[Hk|Hacc]|(d' & Hd' & Hm & Hl)].
        -- right. exists d. split; [by left|done].
        -- by left.
        -- right. exists d'. split; [by right|done].
      * intros [Hacc|(d' & Hd' & Hm & Hl)]; [tauto|].
        apply elem_of_cons in Hd' as [->|Hd']; [tauto|].
        right. by exists d'.
    + intros Hp%IH. rewrite Hp. split.
      * intros [Hacc|(d' & Hd' & Hm & Hl)]; [by left|].
        right. exists d'. split; [by right|done].
      * intros [Hacc|(d' & Hd' & Hm & Hl)]; [by left|].
        apply elem_of_cons in Hd' as [->|Hd']; [congruence|].
        right. by exists d'.
Qed.

(** The only exceptions the two loops can raise. *)
Lemma mobile_probabilities_loop_Raise ds acc e :
  Site.mobile_probabilities_loop s bfs denom ds acc = Raise e ->
  exn_kind e = KeyError \/ exn_kind e = ZeroDivisionError.
Proof.
  revert acc. induction ds as [|d ds IH]; intros acc; [discriminate|].
  cbn [Site.mobile_probabilities_loop].
  destruct (DefectAtSite.can_equilibrate d); [|by apply IH].
  unfold dict_get, py_div.
  destruct (bfs !! DefectAtSite.label d) as [b|]; cbn.
  - destruct (decide (denom = 0)); cbn; [|by apply IH].
    intros [= <-]. by right.
  - intros [= <-]. by left.
Qed.

(** With a zero denominator the first mobile defect met stops the loop. *)
Lemma probabilities_loop_zero_denominator ds acc :
  denom = 0 ->
  (forall d, d ∈ ds -> DefectAtSite.can_equilibrate d = true ->
             is_Some (bfs !! DefectAtSite.label d)) ->
  (exists d, d ∈ ds /\ DefectAtSite.can_equilibrate d = true) ->
  Site.probabilities_loop s bfs denom ds acc
  = Raise (Exn ZeroDivisionError "float division by zero").
Proof.
  intros Hzero. revert acc.
  induction ds as [|d ds IH]; intros acc Hkeys (d0 & Hd0 & Hm0).
  - by apply elem_of_nil in Hd0.
  - cbn [Site.probabilities_loop].
    destruct (DefectAtSite.can_equilibrate d) eqn:Hm; cbn [negb].
    + destruct (Hkeys d) as [b Hb]; [by left|done|].
      unfold dict_get, py_div. rewrite Hb. cbn.
      by destruct (decide (denom = 0)).
    + apply IH.
      * intros d' Hd'. apply Hkeys. by right.
      * apply elem_of_cons in Hd0 as [->|Hd0]; [congruence|]. by exists d0.
Qed.
End ProbabilitiesLoop.

Section ConstructedSite.
Variable fundamental_charge : R.
Variable bf : DefectAtSite.t -> R -> R -> R.
Variables (label : string) (x : R) (species : list DefectSpecies.t)
          (energies : list R) (scaling : option ndarray) (valence sat : R).
Variable s : Site.t.
Hypothesis Hinit :
  Site.__init__ fundamental_charge label x species energies scaling valence sat
  = Ok s.

Lemma constructed_partition :
  Site.fixed_defects s = fixed_species s
  /\ Site.mobile_defects s = mobile_species s
  /\ Site.alpha s = spec_alpha s.
Proof.
  destruct (init_inv _ _ _ _ _ _ _ _ _ Hinit)
    as (_ & _ & Hfix & Hmob & Halpha & _ & Hsat & _).
  repeat split; [done|done|].
  unfold spec_alpha, fixed_species.
  by rewrite Halpha, Hsat, py_sum_Rsum, Hfix.
Qed.

Lemma constructed_mobile_NoDup :
  unique_labels s -> NoDup (DefectAtSite.label <$> Site.mobile_defects s).
Proof.
  intros Hu. destruct constructed_partition as (_ & -> & _).
  by apply NoDup_fmap_filter.
Qed.

Lemma constructed_mobile_elem d :
  d ∈ Site.defects s -> DefectAtSite.can_equilibrate d = true ->
  d ∈ Site.mobile_defects s.
Proof.
  intros Hd Hm. destruct constructed_partition as (_ & -> & _).
  by apply list_elem_of_filter.
Qed.

Lemma constructed_denominator phi temp :
  unique_labels s ->
  Site.denominator bf s phi temp
  = Ok (spec_denominator (fun d => bf d phi temp) s).
Proof.
  intros Hu. rewrite denominator_value by by apply constructed_mobile_NoDup.
  unfold spec_denominator.
  by destruct constructed_partition as (_ & -> & ->).
Qed.

(** The loop result as a fold of assignments of the specified values. *)
Lemma constructed_probabilities phi temp :
  unique_labels s ->
  (mobile_species s <> [] -> spec_denominator (fun d => bf d phi temp) s <> 0) ->
  Site.probabilities bf s phi temp
  = Ok (fold_left
          (fun m d =>
             <[DefectAtSite.label d := spec_probability (fun d => bf d phi temp) s d]> m)
          (Site.defects s) ∅).
Proof.
  intros Hu Hden. unfold Site.probabilities.
  rewrite constructed_denominator by done. cbn.
  rewrite (probabilities_loop_Ok _ _ _ (fun d => bf d phi temp)).
  - f_equal. unfold spec_probability.
    by destruct constructed_partition as (_ & _ & ->).
  - intros d Hd Hm. pose proof (constructed_mobile_elem d Hd Hm) as Hdm. split.
    + apply boltzmann_factors_lookup; [by apply constructed_mobile_NoDup|done].
    + apply Hden. destruct constructed_partition as (_ & <- & _).
      intros Hnil. rewrite Hnil in Hdm. by apply elem_of_nil in Hdm.
Qed.

(** The division is by a Python float: a zero denominator raises as soon
    as the site has a mobile species. *)
Lemma constructed_probabilities_zero_denominator phi temp :
  unique_labels s ->
  mobile_species s <> [] ->
  spec_denominator (fun d => bf d phi temp) s = 0 ->
  Site.probabilities bf s phi temp
  = Raise (Exn ZeroDivisionError "float division by zero").
Proof.
  intros Hu Hmob Hden. unfold Site.probabilities.
  rewrite constructed_denominator by done. cbn.
  apply probabilities_loop_zero_denominator; [done| |].
  - intros d Hd Hm. apply boltzmann_factors_is_Some.
    by apply constructed_mobile_elem.
  - destruct (mobile_species s) as [|d ds] eqn:Hms; [done|].
    assert (Hd : d ∈ mobile_species s) by (rewrite Hms; by left).
    apply list_elem_of_filter in Hd as [Hm Hd]. by exists d.
Qed.
End ConstructedSite.

(** C3. For a constructed site (species labels unique) and conditions
    [(phi, temp)] with [temp > 0]: every mapping that [probabilities]
    returns sends each fixed species' label to its mole fraction and each
    mobile species' label to
    [alpha * mole_fraction * boltzmann_factor / denominator], where
    [denominator = alpha + sum over mobile species of
    mole_fraction * (boltzmann_factor - 1)] and
    [alpha = saturation_parameter - sum of the fixed mole fractions], and
    has no other keys; and a mapping is returned whenever the site has no
    mobile species or the denominator is not zero. *)
Theorem probabilities_spec (fundamental_charge : R)
    (bf : DefectAtSite.t -> R -> R -> R)
    (label : string) (x : R) (species : list DefectSpecies.t)
    (energies : list R) (scaling : option ndarray) (valence sat : R)
    (s : Site.t) (phi temp : R) :
  Site.__init__ fundamental_charge label x species energies scaling valence sat
  = Ok s ->
  unique_labels s ->
  0 < temp ->
  (forall p,
      Site.probabilities bf s phi temp = Ok p ->
      (forall d, d ∈ Site.defects s ->
         p !! DefectAtSite.label d
         = Some (spec_probability (fun d => bf d phi temp) s d))
      /\ (forall k, is_Some (p !! k) ->
                    k ∈ (DefectAtSite.label <$> Site.defects s)))
  /\ (mobile_species s = [] \/ spec_denominator (fun d => bf d phi temp) s <> 0 ->
      is_Ok (Site.probabilities bf s phi temp)).
Proof.
  intros Hinit Hu _.
  assert (Hrun : (mobile_species s <> [] ->
                  spec_denominator (fun d => bf d phi temp) s <> 0) ->
                 Site.probabilities bf s phi temp
                 = Ok (fold_left
                         (fun m d =>
                            <[DefectAtSite.label d :=
                                spec_probability (fun d => bf d phi temp) s d]> m)
                         (Site.defects s) ∅)).
  { intros Hden. eapply constructed_probabilities; eauto. }
  split.
  - intros p Hp.
    assert (Hden : mobile_species s <> [] ->
                   spec_denominator (fun d => bf d phi temp) s <> 0).
    { intros Hmob Hzero.
      rewrite (constructed_probabilities_zero_denominator _ _ _ _ _ _ _ _ _ _
                 Hinit phi temp Hu Hmob Hzero) in Hp.
      discriminate. }
    rewrite (Hrun Hden) in Hp. injection Hp as <-. split.
    + intros d Hd.
      by apply (fold_insert_NoDup DefectAtSite.label
                  (spec_probability (fun d => bf d phi temp) s)).
    + intros k Hk.
      apply (fold_insert_is_Some DefectAtSite.label
               (spec_probability (fun d => bf d phi temp) s)) in Hk.
      destruct Hk as [Hk|Hk]; [|done].
      rewrite lookup_empty in Hk. by destruct Hk.
  - intros Hcase. eexists. apply Hrun. intros Hmob.
    destruct Hcase as [Hnil|Hden]; [done|done].
Qed.

(** C4. For a constructed site with no mobile defects, [probabilities]
    returns one and the same mapping at all conditions, and (labels being
    unique) that mapping gives each species its bulk mole fraction. *)
Theorem probabilities_fixed_only (fundamental_charge : R)
    (bf : DefectAtSite.t -> R -> R -> R)
    (label : string) (x : R) (species : list DefectSpecies.t)
    (energies : list R) (scaling : option ndarray) (valence sat : R)
    (s : Site.t) :
  Site.__init__ fundamental_charge label x species energies scaling valence sat
  = Ok s ->
  Site.mobile_defects s = [] ->
  exists p,
    (forall phi1 temp1 phi2 temp2,
        Site.probabilities bf s phi1 temp1 = Ok p
        /\ Site.probabilities bf s phi2 temp2 = Ok p)
    /\ (unique_labels s ->
        forall d, d ∈ Site.defects s ->
          p !! DefectAtSite.label d = Some (DefectAtSite.mole_fraction d)).
Proof.
  intros Hinit Hnone.
  assert (Hfixed : forall d, d ∈ Site.defects s ->
                     DefectAtSite.can_equilibrate d = false).
  { intros d Hd. destruct (DefectAtSite.can_equilibrate d) eqn:Hm; [|done].
    pose proof (constructed_mobile_elem _ _ _ _ _ _ _ _ _ Hinit d Hd Hm) as Hin.
    rewrite Hnone in Hin. by apply elem_of_nil in Hin. }
  assert (Hrun : forall phi temp,
            Site.probabilities bf s phi temp
            = Ok (fold_left
                    (fun m d => <[DefectAtSite.label d := DefectAtSite.mole_fraction d]> m)
                    (Site.defects s) ∅)).
  { intros phi temp. unfold Site.probabilities, Site.denominator.
    rewrite Hnone. cbn.
    rewrite (probabilities_loop_Ok _ _ _ (fun _ => 0)).
    - f_equal. generalize (∅ : gmap string R).
      induction (Site.defects s) as [|d ds IH]; intros acc; [reflexivity|].
      cbn [fold_left]. rewrite (Hfixed d) by by left.
      apply IH. intros d' Hd'. apply Hfixed. by right.
    - intros d Hd Hm. rewrite (Hfixed d Hd) in Hm. discriminate. }
  eexists. split.
  - intros phi1 temp1 phi2 temp2. split; apply Hrun.
  - intros Hu d Hd.
    by apply (fold_insert_NoDup DefectAtSite.label DefectAtSite.mole_fraction).
Qed.

(** C6. [probabilities_as_list] always issues the deprecation notice and
    then behaves as [probabilities]: it fails exactly when [probabilities]
    fails, with the same exception, and otherwise returns, in the order of
    [defects], the value that the mapping holds under each defect's label. *)
Theorem probabilities_as_list_spec (bf : DefectAtSite.t -> R -> R -> R)
    (s : Site.t) (phi temp : R) :
  fst (Site.probabilities_as_list bf s phi temp) = [Site.deprecation_notice]
  /\ match Site.probabilities bf s phi temp with
     | Ok p =>
         exists vs,
           snd (Site.probabilities_as_list bf s phi temp) = Ok vs
           /\ Forall2 (fun d v => p !! DefectAtSite.label d = Some v)
                      (Site.defects s) vs
     | Raise e => snd (Site.probabilities_as_list bf s phi temp) = Raise e
     end.
Proof.
  split; [reflexivity|]. unfold Site.probabilities_as_list. cbn [snd].
  destruct (Site.probabilities bf s phi temp) as [p|e] eqn:Hp; [|reflexivity].
  cbn.
  assert (Hkeys : forall d, d ∈ Site.defects s ->
                    is_Some (p !! DefectAtSite.label d)).
  { intros d Hd. unfold Site.probabilities in Hp.
    destruct (Site.denominator bf s phi temp) as [den|e]; [|discriminate].
    cbn in Hp. eapply probabilities_loop_keys; [exact Hp|].
    right. by apply list_elem_of_fmap_2. }
  destruct (mapM _ (Site.defects s)) as [vs|e] eqn:Hm.
  - exists vs. split; [reflexivity|].
    apply mapM_Ok_inv in Hm. eapply Forall2_impl; [exact Hm|].
    intros d v. unfold dict_get.
    destruct (p !! DefectAtSite.label d); congruence.
  - apply mapM_Raise_inv in Hm as (d & Hd & Hraise).
    destruct (Hkeys d Hd) as [v Hv]. unfold dict_get in Hraise.
    rewrite Hv in Hraise. discriminate.
Qed.

(** ** Charge *)

Section Charge.
Variable fundamental_charge : R.
Variable bf : DefectAtSite.t -> R -> R -> R.
Variables (s : Site.t) (phi temp : R).

(** The mapping of [mobile_defect_probabilities] has exactly the labels of
    the mobile defects as keys. *)
Lemma mobile_defect_probabilities_keys p k :
  Site.mobile_defect_probabilities bf s phi temp = Ok p ->
  is_Some (p !! k)
  <-> exists d, d ∈ Site.defects s /\ DefectAtSite.can_equilibrate d = true
                /\ DefectAtSite.label d = k.
Proof.
  unfold Site.mobile_defect_probabilities.
  destruct (Site.denominator bf s phi temp) as [den|e]; [|discriminate]. cbn.
  intros Hp. rewrite (mobile_probabilities_loop_keys _ _ _ _ _ _ k Hp).
  rewrite lookup_empty. split; [|tauto].
  intros [[v Hv]|Hd]; [discriminate|done].
Qed.

Lemma weighted_valences_Ok p ds :
  (forall d, d ∈ ds -> is_Some (p !! DefectAtSite.label d)) ->
  Site.weighted_valences p ds = Ok (valence_sum p ds).
Proof.
  intros Hkeys. unfold Site.weighted_valences, valence_sum.
  rewrite (mapM_Ok _ (fun d => default 0 (p !! DefectAtSite.label d)
                               * DefectAtSite.valence d)).
  - cbn. by rewrite py_sum_Rsum.
  - intros d Hd. destruct (Hkeys d Hd) as [v Hv].
    unfold dict_get. by rewrite Hv.
Qed.

(** A label without an entry makes the sum raise [KeyError], naming the
    first such label met. *)
Lemma weighted_valences_KeyError p ds d :
  d ∈ ds -> p !! DefectAtSite.label d = None ->
  exists d', d' ∈ ds /\ p !! DefectAtSite.label d' = None
             /\ Site.weighted_valences p ds
                = Raise (Exn KeyError (DefectAtSite.label d')).
Proof.
  intros Hd Hnone. unfold Site.weighted_valences.
  destruct (mapM_fails
              (fun d => p' ← dict_get p (DefectAtSite.label d);
                        mret (p' * DefectAtSite.valence d))
              ds d (Exn KeyError (DefectAtSite.label d)) Hd) as [e He].
  { unfold dict_get. by rewrite Hnone. }
  rewrite He. cbn. apply mapM_Raise_inv in He as (d' & Hd' & Hraise).
  exists d'. unfold dict_get in Hraise.
  destruct (p !! DefectAtSite.label d') as [v|] eqn:Hv; [discriminate|].
  cbn in Hraise. injection Hraise as <-. done.
Qed.
End Charge.

(** C1. [charge_from_mobile_defects] does not skip the fixed species: on a
    site that holds a fixed defect whose label is not also the label of a
    mobile defect, it never returns a number.  Either
    [mobile_defect_probabilities] itself fails, or the lookup of a fixed
    defect's label in the mobile-only mapping raises [KeyError]. *)
Theorem charge_from_mobile_defects_fails (fundamental_charge : R)
    (bf : DefectAtSite.t -> R -> R -> R) (s : Site.t) (phi temp : R)
    (d : DefectAtSite.t) :
  d ∈ Site.defects s ->
  DefectAtSite.can_equilibrate d = false ->
  (forall d', d' ∈ Site.defects s -> DefectAtSite.can_equilibrate d' = true ->
              DefectAtSite.label d' <> DefectAtSite.label d) ->
  exists e,
    Site.charge_from_mobile_defects fundamental_charge bf s phi temp = Raise e
    /\ (Site.mobile_defect_probabilities bf s phi temp = Raise e
        \/ exists d', d' ∈ Site.defects s
                      /\ DefectAtSite.can_equilibrate d' = false
                      /\ e = Exn KeyError (DefectAtSite.label d')).
Proof.
  intros Hd Hfixed Hfresh. unfold Site.charge_from_mobile_defects.
  destruct (Site.mobile_defect_probabilities bf s phi temp) as [p|e] eqn:Hp.
  - cbn.
    assert (Hnone : p !! DefectAtSite.label d = None).
    { apply eq_None_not_Some. intros Hsome.
      apply (mobile_defect_probabilities_keys _ _ _ _ _ _ Hp) in Hsome
        as (d' & Hd' & Hm & Hl).
      by apply (Hfresh d'). }
    destruct (weighted_valences_KeyError p _ d Hd Hnone)
      as (d' & Hd' & Hnone' & ->).
    cbn. eexists. split; [reflexivity|]. right. exists d'.
    repeat split; [done|].
    destruct (DefectAtSite.can_equilibrate d') eqn:Hm; [|done].
    exfalso. apply eq_None_not_Some in Hnone'. apply Hnone'.
    apply (mobile_defect_probabilities_keys _ _ _ _ _ _ Hp). by exists d'.
  - cbn. eexists. split; [reflexivity|by left].
Qed.

(** ** The worked examples are constructor outputs *)

Lemma fundamental_charge_SI_pos : 0 < fundamental_charge_SI.
Proof. unfold fundamental_charge_SI. lra. Qed.

Lemma boltzmann_eV_SI_pos : 0 < boltzmann_eV_SI.
Proof. unfold boltzmann_eV_SI. lra. Qed.

Lemma init_site_AB :
  Site.__init__ fundamental_charge_SI "O" 0 [species_A; species_B] [-0.5; 0]
                None 0 1 = Ok site_AB.
Proof. reflexivity. Qed.

Lemma init_site_B :
  Site.__init__ fundamental_charge_SI "O" 0 [species_B] [0] None 0 1
  = Ok site_B.
Proof. reflexivity. Qed.

Lemma init_site_A :
  Site.__init__ fundamental_charge_SI "O" 0 [species_A] [0] None 0 1
  = Ok site_A.
Proof. reflexivity. Qed.

Lemma init_site_AC :
  Site.__init__ fundamental_charge_SI "O" 0 [species_A; species_C] [0; 1]
                None 0 1 = Ok site_AC.
Proof. reflexivity. Qed.

Lemma init_site_B_scaled (k : R) :
  k <> 0 ->
  Site.__init__ fundamental_charge_SI "O" 0 [species_B] [0] (Some [k]) 1 1
  = Ok (site_B_scaled k).
Proof.
  intros Hk. unfold Site.__init__. cbn.
  rewrite bool_decide_eq_true_2 by done. reflexivity.
Qed.

Lemma site_AB_unique_labels : unique_labels site_AB.
Proof. unfold unique_labels. cbn. by apply (bool_decide_unpack _). Qed.

Lemma site_AB_denominator :
  spec_denominator (fun d => bf_SI d 0 300) site_AB <> 0.
Proof.
  unfold spec_denominator, spec_alpha, fixed_species, mobile_species. cbn.
  run_filters.
  pose proof (exp_pos (- (-0.5 + 1 * fundamental_charge_SI * 0)
                       / (boltzmann_eV_SI * 300))) as Hexp.
  unfold bf_SI, boltzmann_factor. cbn. lra.
Qed.

(** The worked example of the specification (section 8): at [phi = 0] and
    [temp = 300], [B] keeps its mole fraction [0.05] and [A] gets
    [alpha * 0.1 * exp(0.5 / (boltzmann_eV * 300)) / denominator] with
    [alpha = 0.95]. *)
Lemma worked_example_AB :
  exists p,
    Site.probabilities bf_SI site_AB 0 300 = Ok p
    /\ p !! "B" = Some 0.05
    /\ p !! "A"
       = Some (0.95 * 0.1 * exp (0.5 / (boltzmann_eV_SI * 300))
               / (0.95 + 0.1 * (exp (0.5 / (boltzmann_eV_SI * 300)) - 1))).
Proof.
  assert (HbfA : bf_SI (Site.make_defect species_A (-0.5)) 0 300
                 = exp (0.5 / (boltzmann_eV_SI * 300))).
  { unfold bf_SI, boltzmann_factor. cbn. f_equal. unfold Rdiv. f_equal. lra. }
  assert (Halpha : spec_alpha site_AB = 0.95).
  { unfold spec_alpha, fixed_species. cbn. run_filters. lra. }
  assert (Hden : spec_denominator (fun d => bf_SI d 0 300) site_AB
                 = 0.95 + 0.1 * (exp (0.5 / (boltzmann_eV_SI * 300)) - 1)).
  { unfold spec_denominator. rewrite Halpha. unfold mobile_species. cbn.
    run_filters. rewrite HbfA. lra. }
  eexists. split; [|split].
  - apply (constructed_probabilities _ _ _ _ _ _ _ _ _ _ init_site_AB);
      [exact site_AB_unique_labels|]. intros _. exact site_AB_denominator.
  - by rewrite (fold_insert_NoDup DefectAtSite.label
                  (spec_probability (fun d => bf_SI d 0 300) site_AB)
                  (Site.defects site_AB) ∅ (Site.make_defect species_B 0)
                  site_AB_unique_labels) by (cbn; set_solver).
  - rewrite (fold_insert_NoDup DefectAtSite.label
               (spec_probability (fun d => bf_SI d 0 300) site_AB)
               (Site.defects site_AB) ∅ (Site.make_defect species_A (-0.5))
               site_AB_unique_labels) by (cbn; set_solver).
    unfold spec_probability. cbn [Site.make_defect DefectAtSite.can_equilibrate
      DefectAtSite.mole_fraction species_A DefectSpecies.can_equilibrate
      DefectSpecies.mole_fraction].
    by rewrite Halpha, Hden, HbfA.
Qed.

(** On the worked example, at [phi = 0] and [temp = 300]. *)
Lemma probabilities_spec_witness :
  (forall p,
      Site.probabilities bf_SI site_AB 0 300 = Ok p ->
      (forall d, d ∈ Site.defects site_AB ->
         p !! DefectAtSite.label d
         = Some (spec_probability (fun d => bf_SI d 0 300) site_AB d))
      /\ (forall k, is_Some (p !! k) ->
                    k ∈ (DefectAtSite.label <$> Site.defects site_AB)))
  /\ (mobile_species site_AB = []
      \/ spec_denominator (fun d => bf_SI d 0 300) site_AB <> 0 ->
      is_Ok (Site.probabilities bf_SI site_AB 0 300)).
Proof.
  apply (probabilities_spec fundamental_charge_SI bf_SI "O" 0
           [species_A; species_B] [-0.5; 0] None 0 1 site_AB 0 300).
  - exact init_site_AB.
  - exact site_AB_unique_labels.
  - lra.
Defined.

(** On the site holding the fixed species [B] alone. *)
Lemma probabilities_fixed_only_witness :
  exists p,
    (forall phi1 temp1 phi2 temp2,
        Site.probabilities bf_SI site_B phi1 temp1 = Ok p
        /\ Site.probabilities bf_SI site_B phi2 temp2 = Ok p)
    /\ (unique_labels site_B ->
        forall d, d ∈ Site.defects site_B ->
          p !! DefectAtSite.label d = Some (DefectAtSite.mole_fraction d)).
Proof.
  apply (probabilities_fixed_only fundamental_charge_SI bf_SI "O" 0
           [species_B] [0] None 0 1 site_B).
  - exact init_site_B.
  - reflexivity.
Defined.

(** On the site holding the fixed species [B] alone. *)
Lemma charge_from_mobile_defects_fails_witness :
  exists e,
    Site.charge_from_mobile_defects fundamental_charge_SI bf_SI site_B 0 300
    = Raise e
    /\ (Site.mobile_defect_probabilities bf_SI site_B 0 300 = Raise e
        \/ exists d', d' ∈ Site.defects site_B
                      /\ DefectAtSite.can_equilibrate d' = false
                      /\ e = Exn KeyError (DefectAtSite.label d')).
Proof.
  apply (charge_from_mobile_defects_fails fundamental_charge_SI bf_SI site_B
           0 300 (Site.make_defect species_B 0)).
  - cbn. by left.
  - reflexivity.
  - intros d' Hd' Hm. cbn in Hd'. apply list_elem_of_singleton in Hd'.
    subst d'. discriminate.
Defined.

(** On the single-fixed-species site the outcome is [KeyError('B')]. *)
Lemma charge_from_mobile_defects_site_B :
  Site.charge_from_mobile_defects fundamental_charge_SI bf_SI site_B 0 300
  = Raise (Exn KeyError "B").
Proof. reflexivity. Qed.

(** A record naming [B], the species list [[A; B]], and keyword arguments
    [scaling] and [saturation_parameter] that leave no trace. *)
Lemma from_site_data_ignores_kwargs_witness :
  exists s,
    Site.from_site_data fundamental_charge_SI site_data_B [species_A; species_B]
                        kwargs_example = Ok s
    /\ Site.scaling s = [1]
    /\ Site.saturation_parameter s = 1
    /\ Site.valence s = 1
    /\ Site.from_site_data fundamental_charge_SI site_data_B
                           [species_A; species_B] ∅ = Ok s.
Proof.
  apply (from_site_data_ignores_kwargs fundamental_charge_SI site_data_B
           [species_A; species_B] kwargs_example).
  unfold compatible. cbn. split; [|split].
  - by apply (bool_decide_unpack _).
  - by apply (bool_decide_unpack _).
  - intros l Hl. apply list_elem_of_singleton in Hl. subst l. set_solver.
Defined.

(** ** The Boltzmann factor of the specification *)

Lemma boltzmann_factor_unit (fundamental_charge boltzmann_eV : R)
    (d : DefectAtSite.t) (temp : R) :
  DefectAtSite.energy d = 0 ->
  boltzmann_factor fundamental_charge boltzmann_eV d 0 temp = 1.
Proof.
  intros He. unfold boltzmann_factor. rewrite He.
  replace (- (0 + DefectAtSite.valence d * fundamental_charge * 0)
           / (boltzmann_eV * temp)) with 0 by (unfold Rdiv; ring).
  apply exp_0.
Qed.

Lemma boltzmann_factor_below_1 (fundamental_charge boltzmann_eV : R)
    (d : DefectAtSite.t) (temp : R) :
  0 < DefectAtSite.energy d -> 0 < boltzmann_eV -> 0 < temp ->
  0 < boltzmann_factor fundamental_charge boltzmann_eV d 0 temp < 1.
Proof.
  intros He Hk Ht. unfold boltzmann_factor. split; [apply exp_pos|].
  rewrite <- exp_0. apply exp_increasing.
  replace (- (DefectAtSite.energy d
              + DefectAtSite.valence d * fundamental_charge * 0)
           / (boltzmann_eV * temp))
    with (- (DefectAtSite.energy d / (boltzmann_eV * temp)))
    by (unfold Rdiv; ring).
  apply Ropp_lt_gt_0_contravar. apply Rdiv_lt_0_compat; [done|].
  by apply Rmult_lt_0_compat.
Qed.

Lemma Rsum_zero {A} (f : A -> R) (l : list A) :
  (forall v, v ∈ l -> f v = 0) -> Rsum (f <$> l) = 0.
Proof.
  induction l as [|v l IH]; intros Hall; [reflexivity|].
  rewrite fmap_cons. cbn. rewrite (Hall v) by by left.
  unfold Rsum in IH. rewrite IH; [lra|].
  intros w Hw. apply Hall. by right.
Qed.

(** ** Counterexamples on the worked sites *)

(** C2, as stated, fails: the scaling factor multiplies the defect sum
    only, and the site valence is added afterwards.  On the single-species
    site with [scaling = [2]] and site valence [1] the charge is
    [fundamental_charge * (2 * (0.05 * -1) + 1)], not
    [fundamental_charge * 2 * (0.05 * -1 + 1)]. *)
Lemma charge_scaling_counterexample :
  Site.__init__ fundamental_charge_SI "O" 0 [species_B] [0] (Some [2]) 1 1
  = Ok (site_B_scaled 2)
  /\ Site.probabilities bf_SI (site_B_scaled 2) 0 300 = Ok {["B" := 0.05]}
  /\ Site.charge fundamental_charge_SI bf_SI (site_B_scaled 2) 0 300
     = Ok (0.9 * fundamental_charge_SI)
  /\ 0.9 * fundamental_charge_SI
     <> fundamental_charge_SI * 2 * (0.05 * -1 + 1).
Proof.
  split; [apply init_site_B_scaled; lra|].
  split; [reflexivity|].
  split.
  - run_charge. f_equal. lra.
  - pose proof fundamental_charge_SI_pos. lra.
Qed.

(** C5, as stated, fails for the scaling factor: doubling the single entry
    of [scaling] does not double the charge when the site valence is not
    zero. *)
Lemma charge_not_linear_in_scaling :
  Site.__init__ fundamental_charge_SI "O" 0 [species_B] [0] (Some [1]) 1 1
  = Ok (site_B_scaled 1)
  /\ Site.__init__ fundamental_charge_SI "O" 0 [species_B] [0]
                   (Some (Rmult 2 <$> [1])) 1 1
     = Ok (site_B_scaled (2 * 1))
  /\ Site.charge fundamental_charge_SI bf_SI (site_B_scaled 1) 0 300
     = Ok (0.95 * fundamental_charge_SI)
  /\ Site.charge fundamental_charge_SI bf_SI (site_B_scaled (2 * 1)) 0 300
     = Ok (0.9 * fundamental_charge_SI)
  /\ 0.9 * fundamental_charge_SI <> 2 * (0.95 * fundamental_charge_SI).
Proof.
  split; [apply init_site_B_scaled; lra|].
  split; [apply (init_site_B_scaled (2 * 1)); lra|].
  split; [run_charge; f_equal; lra|].
  split; [run_charge; f_equal; lra|].
  pose proof fundamental_charge_SI_pos. lra.
Qed.

(** C8, as stated, fails: the missing grid point is reported with the
    same exception class as a construction validation error; only the
    message text differs. *)
Lemma missing_grid_point_error_not_distinct :
  Site.grid_point site_B = None
  /\ Site.average_local_energy site_B "mean" = Raise (Exn ValueError "TODO")
  /\ Site.__init__ fundamental_charge_SI "O" 0 [species_B] [] None 0 1
     = Raise (Exn ValueError
                "len(defect_species) must be equal to len(defect_energies)")
  /\ exn_kind (Exn ValueError "TODO")
     = exn_kind (Exn ValueError
                   "len(defect_species) must be equal to len(defect_energies)").
Proof. repeat split. Qed.

(** C7, as stated, fails: a zero-energy species at [phi = 0] has Boltzmann
    factor [1], but its probability is [alpha * m / denominator], and the
    denominator differs from [alpha] as soon as another mobile species of
    the site has a Boltzmann factor other than [1].  On [site_AC] species
    [A] (energy [0], mole fraction [0.1]) does not get probability [0.1]. *)
Lemma zero_energy_probability_counterexample :
  DefectAtSite.energy (Site.make_defect species_A 0) = 0
  /\ DefectAtSite.mole_fraction (Site.make_defect species_A 0) = 0.1
  /\ bf_SI (Site.make_defect species_A 0) 0 300 = 1
  /\ exists p v,
       Site.probabilities bf_SI site_AC 0 300 = Ok p
       /\ p !! "A" = Some v
       /\ v <> 0.1.
Proof.
  split; [reflexivity|]. split; [reflexivity|].
  assert (HA : bf_SI (Site.make_defect species_A 0) 0 300 = 1).
  { by apply boltzmann_factor_unit. }
  split; [exact HA|].
  destruct (boltzmann_factor_below_1 fundamental_charge_SI boltzmann_eV_SI
              (Site.make_defect species_C 1) 300) as [HC0 HC1].
  { cbn. lra. }
  { apply boltzmann_eV_SI_pos. }
  { lra. }
  fold bf_SI in HC0, HC1.
  assert (Hu : unique_labels site_AC).
  { unfold unique_labels. cbn. by apply (bool_decide_unpack _). }
  assert (Hden : spec_denominator (fun d => bf_SI d 0 300) site_AC
                 = 0.9 + 0.1 * bf_SI (Site.make_defect species_C 1) 0 300).
  { unfold spec_denominator, spec_alpha, fixed_species, mobile_species. cbn.
    run_filters. rewrite HA. lra. }
  eexists. eexists. split; [|split].
  - apply (constructed_probabilities _ _ _ _ _ _ _ _ _ _ init_site_AC);
      [done|]. intros _. rewrite Hden. lra.
  - apply (fold_insert_NoDup DefectAtSite.label
             (spec_probability (fun d => bf_SI d 0 300) site_AC)
             (Site.defects site_AC) ∅ (Site.make_defect species_A 0) Hu).
    cbn. by left.
  - unfold spec_probability. cbn [Site.make_defect DefectAtSite.can_equilibrate
      DefectAtSite.mole_fraction species_A DefectSpecies.can_equilibrate
      DefectSpecies.mole_fraction].
    rewrite Hden, HA.
    assert (Halpha : spec_alpha site_AC = 1).
    { unfold spec_alpha, fixed_species. cbn. run_filters. lra. }
    rewrite Halpha. intros Heq.
    set (c := bf_SI (Site.make_defect species_C 1) 0 300) in *.
    assert (Hmul : 1 * 0.1 * 1 / (0.9 + 0.1 * c) * (0.9 + 0.1 * c) = 0.1).
    { field. lra. }
    rewrite Heq in Hmul. lra.
Qed.

(** ** Charge: what the code computes *)

Section ChargeFormula.
Variable fundamental_charge : R.
Variable bf : DefectAtSite.t -> R -> R -> R.
Variables (s : Site.t) (phi temp : R).

Lemma probabilities_keys p d :
  Site.probabilities bf s phi temp = Ok p ->
  d ∈ Site.defects s -> is_Some (p !! DefectAtSite.label d).
Proof.
  unfold Site.probabilities.
  destruct (Site.denominator bf s phi temp) as [den|e]; [|discriminate].
  cbn. intros Hp Hd. eapply probabilities_loop_keys; [exact Hp|].
  right. by apply list_elem_of_fmap_2.
Qed.

(** Before the conversion to [float], [charge] holds one entry per entry
    of [scaling]. *)
Lemma charge_unfold p :
  Site.probabilities bf s phi temp = Ok p ->
  Site.charge fundamental_charge bf s phi temp
  = float_of_ndarray
      ((fun sc => (valence_sum p (Site.defects s) * sc + Site.valence s)
                  * fundamental_charge) <$> Site.scaling s).
Proof.
  intros Hp. unfold Site.charge. rewrite Hp. cbn.
  rewrite weighted_valences_Ok by (intros d Hd; by eapply probabilities_keys).
  cbn. f_equal. rewrite <- !list_fmap_compose. reflexivity.
Qed.

(** The conversion to [float] rejects an array of any other length than
    one, so [charge] raises [TypeError] on such a [scaling]. *)
Lemma charge_TypeError p :
  Site.probabilities bf s phi temp = Ok p ->
  length (Site.scaling s) <> 1%nat ->
  Site.charge fundamental_charge bf s phi temp
  = Raise (Exn TypeError
             "only length-1 arrays can be converted to Python scalars").
Proof.
  intros Hp Hlen. rewrite (charge_unfold p Hp).
  destruct (Site.scaling s) as [|sc [|sc' rest]]; cbn in *; done.
Qed.

(** The loop reads [alpha] and nothing else of the site. *)
Lemma probabilities_loop_alpha (s' : Site.t) bfs den ds acc :
  Site.alpha s' = Site.alpha s ->
  Site.probabilities_loop s' bfs den ds acc
  = Site.probabilities_loop s bfs den ds acc.
Proof.
  intros Halpha. revert acc.
  induction ds as [|d ds IH]; intros acc; [reflexivity|].
  cbn [Site.probabilities_loop]. rewrite Halpha.
  destruct (DefectAtSite.can_equilibrate d); cbn [negb]; [|apply IH].
  destruct (dict_get bfs (DefectAtSite.label d)) as [b|e]; [|reflexivity].
  cbn. destruct (py_div _ den) as [q|e]; [|reflexivity]. cbn. apply IH.
Qed.

(** [probabilities] does not read [scaling]. *)
Lemma probabilities_set_scaling a :
  Site.probabilities bf (Site.set_scaling s a) phi temp
  = Site.probabilities bf s phi temp.
Proof.
  unfold Site.probabilities.
  change (Site.denominator bf (Site.set_scaling s a) phi temp)
    with (Site.denominator bf s phi temp).
  destruct (Site.denominator bf s phi temp) as [den|e]; [|reflexivity]. cbn.
  by apply probabilities_loop_alpha.
Qed.
End ChargeFormula.

(** C2 (amended). On a site whose [scaling] holds a single entry [sc], and
    at conditions where [probabilities] returns the mapping [p], [charge]
    returns [fundamental_charge * (sc * S + site_valence)], where [S] is the
    sum over all defects of [p[d.label] * d.valence]: the scaling factor
    multiplies the defect sum, not the site valence. *)
Theorem charge_formula (fundamental_charge : R)
    (bf : DefectAtSite.t -> R -> R -> R) (s : Site.t) (phi temp sc : R)
    (p : gmap string R) :
  Site.scaling s = [sc] ->
  Site.probabilities bf s phi temp = Ok p ->
  (forall d, d ∈ Site.defects s -> is_Some (p !! DefectAtSite.label d))
  /\ Site.charge fundamental_charge bf s phi temp
     = Ok (fundamental_charge
           * (sc * valence_sum p (Site.defects s) + Site.valence s)).
Proof.
  intros Hsc Hp. split.
  - intros d Hd. by eapply probabilities_keys.
  - rewrite (charge_unfold _ _ _ _ _ p Hp), Hsc. cbn. f_equal.
    unfold valence_sum, Rsum. ring.
Qed.

(** On the single-species site with [scaling = [2]] and site valence [1]. *)
Lemma charge_formula_witness :
  (forall d, d ∈ Site.defects (site_B_scaled 2) ->
             is_Some (({["B" := 0.05]} : gmap string R) !! DefectAtSite.label d))
  /\ Site.charge fundamental_charge_SI bf_SI (site_B_scaled 2) 0 300
     = Ok (fundamental_charge_SI
           * (2 * valence_sum {["B" := 0.05]} (Site.defects (site_B_scaled 2))
              + Site.valence (site_B_scaled 2))).
Proof.
  apply (charge_formula fundamental_charge_SI bf_SI (site_B_scaled 2) 0 300 2
           {["B" := 0.05]}); reflexivity.
Defined.

(** C5 (amended). Where [charge] returns [v]: multiplying
    [fundamental_charge] by [c] multiplies the charge by [c]; multiplying
    every entry of [scaling] by [c] multiplies the defect contribution only,
    giving [c * v + (1 - c) * fundamental_charge * site_valence], which is
    [c * v] when the site valence is zero. *)
Theorem charge_linearity (fundamental_charge : R)
    (bf : DefectAtSite.t -> R -> R -> R) (s : Site.t) (phi temp c v : R) :
  Site.charge fundamental_charge bf s phi temp = Ok v ->
  Site.charge (c * fundamental_charge) bf s phi temp = Ok (c * v)
  /\ Site.charge fundamental_charge bf
       (Site.set_scaling s (Rmult c <$> Site.scaling s)) phi temp
     = Ok (c * v + (1 - c) * (fundamental_charge * Site.valence s))
  /\ (Site.valence s = 0 ->
      Site.charge fundamental_charge bf
        (Site.set_scaling s (Rmult c <$> Site.scaling s)) phi temp
      = Ok (c * v)).
Proof.
  intros Hv.
  destruct (Site.probabilities bf s phi temp) as [p|e] eqn:Hp;
    [|unfold Site.charge in Hv; rewrite Hp in Hv; discriminate].
  rewrite (charge_unfold _ _ _ _ _ p Hp) in Hv.
  destruct (Site.scaling s) as [|sc [|sc' rest]] eqn:Hsc; try discriminate.
  cbn in Hv. injection Hv as <-.
  assert (Hscaled :
            Site.charge fundamental_charge bf
              (Site.set_scaling s (Rmult c <$> [sc])) phi temp
            = Ok (c * ((valence_sum p (Site.defects s) * sc + Site.valence s)
                       * fundamental_charge)
                  + (1 - c) * (fundamental_charge * Site.valence s))).
  { rewrite (charge_unfold _ _ _ _ _ p)
      by (by rewrite probabilities_set_scaling).
    cbn. f_equal. unfold valence_sum, Rsum. ring. }
  split; [|split].
  - rewrite (charge_unfold _ _ _ _ _ p Hp), Hsc. cbn. f_equal.
    unfold valence_sum, Rsum. ring.
  - exact Hscaled.
  - intros H0. rewrite Hscaled. f_equal. rewrite H0. ring.
Qed.

(** On the single-species site with [scaling = [1]], with [c = 3]. *)
Lemma charge_linearity_witness :
  Site.charge (3 * fundamental_charge_SI) bf_SI (site_B_scaled 1) 0 300
  = Ok (3 * (0.95 * fundamental_charge_SI))
  /\ Site.charge fundamental_charge_SI bf_SI
       (Site.set_scaling (site_B_scaled 1)
          (Rmult 3 <$> Site.scaling (site_B_scaled 1))) 0 300
     = Ok (3 * (0.95 * fundamental_charge_SI)
           + (1 - 3) * (fundamental_charge_SI * Site.valence (site_B_scaled 1)))
  /\ (Site.valence (site_B_scaled 1) = 0 ->
      Site.charge fundamental_charge_SI bf_SI
        (Site.set_scaling (site_B_scaled 1)
           (Rmult 3 <$> Site.scaling (site_B_scaled 1))) 0 300
      = Ok (3 * (0.95 * fundamental_charge_SI))).
Proof.
  apply (charge_linearity fundamental_charge_SI bf_SI (site_B_scaled 1)
           0 300 3 (0.95 * fundamental_charge_SI)).
  run_charge. f_equal. lra.
Defined.

(** C8 (amended). Without a grid point, [average_local_energy] fails
    for every method argument, and the exception it raises is a
    [ValueError], the class that the constructor also uses to reject its
    arguments. *)
Theorem average_local_energy_no_grid (s : Site.t) (method : string) :
  Site.grid_point s = None ->
  exists e,
    Site.average_local_energy s method = Raise e /\ exn_kind e = ValueError.
Proof.
  intros Hnone. unfold Site.average_local_energy. rewrite Hnone.
  by eexists.
Qed.

(** On a freshly constructed site, which has no grid point. *)
Lemma average_local_energy_no_grid_witness :
  exists e,
    Site.average_local_energy site_B "min" = Raise e
    /\ exn_kind e = ValueError.
Proof. apply (average_local_energy_no_grid site_B "min"). reflexivity. Defined.

(** C7 (amended). With the Boltzmann factor of the specification, at
    [phi = 0] and [temp > 0]: a species of zero energy has Boltzmann factor
    [1]; and on a constructed site with unique labels and non-zero [alpha]
    all of whose mobile species have zero energy, [probabilities] gives each
    mobile species exactly its mole fraction. *)
Theorem zero_energy_probability (fundamental_charge boltzmann_eV : R)
    (label : string) (x : R) (species : list DefectSpecies.t)
    (energies : list R) (scaling : option ndarray) (valence sat : R)
    (s : Site.t) (temp : R) :
  Site.__init__ fundamental_charge label x species energies scaling valence sat
  = Ok s ->
  unique_labels s ->
  0 < temp ->
  spec_alpha s <> 0 ->
  (forall d, DefectAtSite.energy d = 0 ->
             boltzmann_factor fundamental_charge boltzmann_eV d 0 temp = 1)
  /\ ((forall d, d ∈ Site.defects s -> DefectAtSite.can_equilibrate d = true ->
                 DefectAtSite.energy d = 0) ->
      exists p,
        Site.probabilities (boltzmann_factor fundamental_charge boltzmann_eV)
                           s 0 temp = Ok p
        /\ forall d, d ∈ Site.defects s ->
                     DefectAtSite.can_equilibrate d = true ->
                     p !! DefectAtSite.label d
                     = Some (DefectAtSite.mole_fraction d)).
Proof.
  intros Hinit Hu _ Halpha. split.
  - intros d. apply boltzmann_factor_unit.
  - intros Hzero.
    set (b := boltzmann_factor fundamental_charge boltzmann_eV).
    assert (Hden : spec_denominator (fun d => b d 0 temp) s = spec_alpha s).
    { unfold spec_denominator. rewrite Rsum_zero; [lra|].
      intros d [Hm Hd]%list_elem_of_filter. unfold b.
      rewrite boltzmann_factor_unit by by apply Hzero. lra. }
    eexists. split.
    + eapply constructed_probabilities; [exact Hinit|done|].
      intros _. by rewrite Hden.
    + intros d Hd Hm.
      rewrite (fold_insert_NoDup DefectAtSite.label
                 (spec_probability (fun d => b d 0 temp) s)) by done.
      f_equal. unfold spec_probability. rewrite Hm, Hden. unfold b.
      rewrite boltzmann_factor_unit by by apply Hzero. by field.
Qed.

(** On the site holding the mobile species [A] alone, with energy [0]. *)
Lemma zero_energy_probability_witness :
  (forall d, DefectAtSite.energy d = 0 -> bf_SI d 0 300 = 1)
  /\ ((forall d, d ∈ Site.defects site_A ->
                 DefectAtSite.can_equilibrate d = true ->
                 DefectAtSite.energy d = 0) ->
      exists p,
        Site.probabilities bf_SI site_A 0 300 = Ok p
        /\ forall d, d ∈ Site.defects site_A ->
                     DefectAtSite.can_equilibrate d = true ->
                     p !! DefectAtSite.label d
                     = Some (DefectAtSite.mole_fraction d)).
Proof.
  apply (zero_energy_probability fundamental_charge_SI boltzmann_eV_SI "O" 0
           [species_A] [0] None 0 1 site_A 300).
  - exact init_site_A.
  - unfold unique_labels. cbn. by apply (bool_decide_unpack _).
  - lra.
  - unfold spec_alpha, fixed_species. cbn. run_filters. lra.
Defined.

(** * Further results on [site.py] and [practice.py] *)

(** ** The constructor *)

Lemma filter_partition_Permutation {A} (P Q : A -> Prop)
    `{forall v, Decision (P v)} `{forall v, Decision (Q v)} (l : list A) :
  (forall v, P v <-> ~ Q v) ->
  filter P l ++ filter Q l ≡ₚ l.
Proof.
  intros HPQ. induction l as [|v l IH]; [reflexivity|].
  rewrite !filter_cons.
  destruct (decide (P v)) as [HP|HP], (decide (Q v)) as [HQ|HQ].
  - exfalso. by apply (HPQ v).
  - cbn. by rewrite IH.
  - rewrite <- Permutation_middle. by rewrite IH.
  - exfalso. apply HP, HPQ. done.
Qed.

Lemma zip_with_make_defect_energy species energies :
  length species = length energies ->
  DefectAtSite.energy <$> zip_with Site.make_defect species energies = energies.
Proof.
  revert energies. induction species as [|d species IH];
    intros [|e energies] Hlen; try discriminate; [reflexivity|].
  cbn. f_equal. apply IH. by injection Hlen.
Qed.

Lemma zip_with_make_defect_species {B} (f : DefectAtSite.t -> B)
    (g : DefectSpecies.t -> B) species energies :
  (forall d e, f (Site.make_defect d e) = g d) ->
  length species = length energies ->
  f <$> zip_with Site.make_defect species energies = g <$> species.
Proof.
  intros Hfg. revert energies. induction species as [|d species IH];
    intros [|e energies] Hlen; try discriminate; [reflexivity|].
  cbn. rewrite Hfg. f_equal. apply IH. by injection Hlen.
Qed.

Lemma fixed_charge_fold (ds : list DefectAtSite.t) (v0 : R) :
  fold_left (fun acc defect =>
               if negb (DefectAtSite.can_equilibrate defect)
               then acc + DefectAtSite.mole_fraction defect
                          * DefectAtSite.valence defect
               else acc) ds v0
  = v0 + Rsum ((fun d => DefectAtSite.mole_fraction d * DefectAtSite.valence d)
                 <$> filter (fun d => DefectAtSite.can_equilibrate d = false) ds).
Proof.
  revert v0. induction ds as [|d ds IH]; intros v0; [cbn; lra|].
  cbn [fold_left]. rewrite IH, filter_cons.
  destruct (DefectAtSite.can_equilibrate d); cbn [negb].
  - rewrite decide_False by done. reflexivity.
  - rewrite decide_True by done. rewrite fmap_cons. unfold Rsum.
    cbn [foldr]. lra.
Qed.

(** X1. For a [scaling] argument other than an empty array, the
    constructor returns a site exactly when the species and energy lists
    have the same length and [scaling] is absent, a single zero, or a single
    entry for a single species; every failure is a [ValueError].  An array
    of two or more entries is always rejected. *)
Theorem init_succeeds_iff (fundamental_charge : R) (label : string) (x : R)
    (species : list DefectSpecies.t) (energies : list R)
    (scaling : option ndarray) (valence sat : R) :
  scaling <> Some [] ->
  (is_Ok (Site.__init__ fundamental_charge label x species energies scaling
                        valence sat)
   <-> length species = length energies
       /\ scaling_accepted (length species) scaling)
  /\ forall e,
       Site.__init__ fundamental_charge label x species energies scaling
                     valence sat = Raise e ->
       exn_kind e = ValueError.
Proof.
  intros _. unfold Site.__init__, is_Ok.
  destruct (Nat.eqb_spec (length species) (length energies)) as [Hlen|Hlen];
    cbn [negb].
  2:{ split; [|by intros e [= <-]].
      split; [by intros [a ?]|by intros [? _]]. }
  destruct scaling as [[|v [|v' rest]]|]; cbn.
  - split; [|discriminate]. split; [done|by eexists].
  - destruct (decide (v = 0)) as [Hv|Hv].
    + rewrite bool_decide_eq_false_2 by (intros Hn; by apply Hn). cbn.
      split; [|discriminate]. split; [by auto|by eexists].
    + rewrite bool_decide_eq_true_2 by done. cbn.
      destruct (Nat.eqb_spec (length species) 1) as [H1|H1]; cbn.
      * split; [|discriminate]. split; [by auto|by eexists].
      * split; [|by intros e [= <-]].
        split; [by intros [a ?]|]. intros [_ [?|?]]; done.
  - split; [|by intros e [= <-]].
    split; [by intros [a ?]|by intros [_ ?]].
  - split; [|discriminate]. split; [done|by eexists].
Qed.

(** One species with [scaling = [2]] is accepted. *)
Lemma init_succeeds_iff_witness :
  (is_Ok (Site.__init__ fundamental_charge_SI "O" 0 [species_B] [0] (Some [2])
                        1 1)
   <-> length [species_B] = length [0]
       /\ scaling_accepted (length [species_B]) (Some [2]))
  /\ forall e,
       Site.__init__ fundamental_charge_SI "O" 0 [species_B] [0] (Some [2]) 1 1
       = Raise e ->
       exn_kind e = ValueError.
Proof.
  apply (init_succeeds_iff fundamental_charge_SI "O" 0 [species_B] [0]
           (Some [2]) 1 1).
  discriminate.
Defined.

(** X2. After a successful construction the derived attributes are
    consistent: there is one defect per species and one scaling entry per
    defect, [fixed_defects] and [mobile_defects] together are a
    rearrangement of [defects], split by [can_equilibrate], and no grid
    point is attached. *)
Theorem init_partition (fundamental_charge : R) (label : string) (x : R)
    (species : list DefectSpecies.t) (energies : list R)
    (scaling : option ndarray) (valence sat : R) (s : Site.t) :
  Site.__init__ fundamental_charge label x species energies scaling valence sat
  = Ok s ->
  length (Site.defects s) = length species
  /\ length (Site.scaling s) = length (Site.defects s)
  /\ Site.fixed_defects s ++ Site.mobile_defects s ≡ₚ Site.defects s
  /\ Forall (fun d => DefectAtSite.can_equilibrate d = false) (Site.fixed_defects s)
  /\ Forall (fun d => DefectAtSite.can_equilibrate d = true) (Site.mobile_defects s)
  /\ Site.grid_point s = None.
Proof.
  intros Hinit.
  destruct (init_inv _ _ _ _ _ _ _ _ _ Hinit)
    as (Hlen & Hdef & Hfix & Hmob & _ & _ & _ & Hgrid & _ & Hsc).
  split; [rewrite Hdef, length_zip_with; lia|].
  split; [done|]. split; [|split; [|split; [|done]]].
  - rewrite Hfix, Hmob. apply filter_partition_Permutation.
    intros d. destruct (DefectAtSite.can_equilibrate d); split; congruence.
  - rewrite Hfix. apply Forall_forall. by intros d [? _]%list_elem_of_filter.
  - rewrite Hmob. apply Forall_forall. by intros d [? _]%list_elem_of_filter.
Qed.

Lemma init_partition_witness :
  length (Site.defects site_AB) = length [species_A; species_B]
  /\ length (Site.scaling site_AB) = length (Site.defects site_AB)
  /\ Site.fixed_defects site_AB ++ Site.mobile_defects site_AB
     ≡ₚ Site.defects site_AB
  /\ Forall (fun d => DefectAtSite.can_equilibrate d = false)
            (Site.fixed_defects site_AB)
  /\ Forall (fun d => DefectAtSite.can_equilibrate d = true)
            (Site.mobile_defects site_AB)
  /\ Site.grid_point site_AB = None.
Proof.
  apply (init_partition fundamental_charge_SI "O" 0 [species_A; species_B]
           [-0.5; 0] None 0 1 site_AB).
  reflexivity.
Defined.

(** X3. The stored [fixed_charge] is [fundamental_charge] times the site
    valence plus the sum, over the fixed defects only, of
    [mole_fraction * valence]: the conditional loop of
    [calculate_fixed_charge] adds nothing for a mobile defect. *)
Theorem init_fixed_charge (fundamental_charge : R) (label : string) (x : R)
    (species : list DefectSpecies.t) (energies : list R)
    (scaling : option ndarray) (valence sat : R) (s : Site.t) :
  Site.__init__ fundamental_charge label x species energies scaling valence sat
  = Ok s ->
  Site.fixed_charge s
  = fundamental_charge
    * (valence
       + Rsum ((fun d => DefectAtSite.mole_fraction d * DefectAtSite.valence d)
                 <$> Site.fixed_defects s)).
Proof.
  intros Hinit.
  destruct (init_inv _ _ _ _ _ _ _ _ _ Hinit)
    as (_ & _ & Hfix & _ & _ & Hval & _ & _ & Hfc & _).
  rewrite Hfc. unfold Site.calculate_fixed_charge.
  rewrite fixed_charge_fold, Hval, Hfix. ring.
Qed.

(** On the worked example: [fixed_charge = fc * (0 + 0.05 * -1)]. *)
Lemma init_fixed_charge_witness :
  Site.fixed_charge site_AB
  = fundamental_charge_SI
    * (0 + Rsum ((fun d => DefectAtSite.mole_fraction d * DefectAtSite.valence d)
                   <$> Site.fixed_defects site_AB)).
Proof.
  apply (init_fixed_charge fundamental_charge_SI "O" 0 [species_A; species_B]
           [-0.5; 0] None 0 1 site_AB).
  reflexivity.
Defined.

(** X4. For a [scaling] argument other than an empty array, the [scaling]
    attribute of a constructed site is the argument only when that is a
    single non-zero entry; an absent argument, and also a single zero, give
    the all-ones array with one entry per energy. *)
Theorem init_scaling (fundamental_charge : R) (label : string) (x : R)
    (species : list DefectSpecies.t) (energies : list R)
    (scaling : option ndarray) (valence sat : R) (s : Site.t) :
  scaling <> Some [] ->
  Site.__init__ fundamental_charge label x species energies scaling valence sat
  = Ok s ->
  Site.scaling s
  = match scaling with
    | Some [v] => if decide (v = 0) then replicate (length energies) 1 else [v]
    | _ => replicate (length energies) 1
    end.
Proof.
  intros _. unfold Site.__init__.
  destruct (Nat.eqb_spec (length species) (length energies)) as [Hlen|Hlen];
    cbn [negb]; [|discriminate].
  destruct scaling as [[|v [|v' rest]]|]; cbn; try discriminate.
  - by intros [= <-].
  - destruct (decide (v = 0)) as [Hv|Hv].
    + rewrite bool_decide_eq_false_2 by (intros Hn; by apply Hn). cbn.
      by intros [= <-].
    + rewrite bool_decide_eq_true_2 by done. cbn.
      destruct (length species =? 1)%nat; cbn; [|discriminate].
      by intros [= <-].
  - by intros [= <-].
Qed.

(** A single zero entry is dropped in favour of the default. *)
Lemma init_scaling_witness :
  Site.scaling site_B = if decide (0 = 0) then replicate (length [0]) 1 else [0].
Proof.
  apply (init_scaling fundamental_charge_SI "O" 0 [species_B] [0] (Some [0])
           0 1 site_B); [discriminate|].
  unfold Site.__init__. cbn.
  rewrite bool_decide_eq_false_2 by (intros Hn; by apply Hn). reflexivity.
Defined.

(** X5. What goes into the constructor comes back out: [energies()]
    returns the energies passed in, in order, and the defects carry the
    labels and valences of the species passed in, in order. *)
Theorem init_round_trip (fundamental_charge : R) (label : string) (x : R)
    (species : list DefectSpecies.t) (energies : list R)
    (scaling : option ndarray) (valence sat : R) (s : Site.t) :
  Site.__init__ fundamental_charge label x species energies scaling valence sat
  = Ok s ->
  Site.energies s = energies
  /\ Site.defect_valences s = DefectSpecies.valence <$> species
  /\ DefectAtSite.label <$> Site.defects s = DefectSpecies.label <$> species
  /\ DefectAtSite.mole_fraction <$> Site.defects s
     = DefectSpecies.mole_fraction <$> species.
Proof.
  intros Hinit.
  destruct (init_inv _ _ _ _ _ _ _ _ _ Hinit) as (Hlen & Hdef & _).
  unfold Site.energies, Site.defect_valences. rewrite Hdef.
  split; [by apply zip_with_make_defect_energy|].
  repeat split; by apply zip_with_make_defect_species.
Qed.

Lemma init_round_trip_witness :
  Site.energies site_AB = [-0.5; 0]
  /\ Site.defect_valences site_AB
     = DefectSpecies.valence <$> [species_A; species_B]
  /\ DefectAtSite.label <$> Site.defects site_AB
     = DefectSpecies.label <$> [species_A; species_B]
  /\ DefectAtSite.mole_fraction <$> Site.defects site_AB
     = DefectSpecies.mole_fraction <$> [species_A; species_B].
Proof.
  apply (init_round_trip fundamental_charge_SI "O" 0 [species_A; species_B]
           [-0.5; 0] None 0 1 site_AB).
  reflexivity.
Defined.

(** ** Lookup by label *)

(** X6. [defect_with_label] either returns a defect of the site that
    carries the requested label, or raises [LabelError], and it raises
    exactly when no defect of the site carries the label. *)
Theorem defect_with_label_spec (s : Site.t) (label : string) :
  match Site.defect_with_label s label with
  | Ok d => d ∈ Site.defects s /\ DefectAtSite.label d = label
  | Raise e =>
      exn_kind e = LabelError
      /\ label ∉ (DefectAtSite.label <$> Site.defects s)
  end.
Proof.
  unfold Site.defect_with_label.
  destruct (List.find _ (Site.defects s)) as [d|] eqn:Hfind.
  - apply List.find_some in Hfind as [Hin Hd].
    split; [by apply list_elem_of_In|]. by apply bool_decide_eq_true in Hd.
  - split; [reflexivity|].
    intros (d & Hl & Hd)%list_elem_of_fmap.
    apply list_elem_of_In in Hd.
    pose proof (List.find_none _ _ Hfind d Hd) as Hfalse. cbn in Hfalse.
    apply bool_decide_eq_false in Hfalse. congruence.
Qed.

(** X7. With unique labels, looking a defect up by its own label returns
    that very defect. *)
Theorem defect_with_label_round_trip (s : Site.t) (d : DefectAtSite.t) :
  unique_labels s ->
  d ∈ Site.defects s ->
  Site.defect_with_label s (DefectAtSite.label d) = Ok d.
Proof.
  intros Hu Hd. unfold Site.defect_with_label.
  destruct (List.find _ (Site.defects s)) as [d'|] eqn:Hfind.
  - apply List.find_some in Hfind as [Hin Hl].
    apply bool_decide_eq_true in Hl. apply list_elem_of_In in Hin.
    f_equal. by apply (NoDup_fmap_elem_inj DefectAtSite.label (Site.defects s)).
  - apply list_elem_of_In in Hd.
    pose proof (List.find_none _ _ Hfind d Hd) as Hfalse. cbn in Hfalse.
    by apply bool_decide_eq_false in Hfalse.
Qed.

Lemma defect_with_label_round_trip_witness :
  Site.defect_with_label site_AB "B" = Ok (Site.make_defect species_B 0).
Proof.
  apply (defect_with_label_round_trip site_AB (Site.make_defect species_B 0)).
  - exact site_AB_unique_labels.
  - cbn. set_solver.
Defined.

(** ** The two probability mappings *)

Section MoreLoops.
Variables (s : Site.t) (bfs : gmap string R) (denom : R).

(** The two loops stop at the same defect with the same exception. *)
Lemma loops_raise_alike ds acc1 acc2 e :
  Site.probabilities_loop s bfs denom ds acc1 = Raise e
  <-> Site.mobile_probabilities_loop s bfs denom ds acc2 = Raise e.
Proof.
  revert acc1 acc2. induction ds as [|d ds IH]; intros acc1 acc2; [done|].
  cbn [Site.probabilities_loop Site.mobile_probabilities_loop].
  destruct (DefectAtSite.can_equilibrate d); cbn [negb]; [|apply IH].
  destruct (dict_get bfs (DefectAtSite.label d)) as [b|e']; [|done]. cbn.
  destruct (py_div _ denom) as [q|e']; [|done]. cbn. apply IH.
Qed.

Lemma loops_finish_alike ds acc1 acc2 :
  is_Ok (Site.probabilities_loop s bfs denom ds acc1)
  <-> is_Ok (Site.mobile_probabilities_loop s bfs denom ds acc2).
Proof.
  unfold is_Ok.
  destruct (Site.probabilities_loop s bfs denom ds acc1) as [p|e] eqn:Hp;
    destruct (Site.mobile_probabilities_loop s bfs denom ds acc2) as [q|e'] eqn:Hq.
  - split; eauto.
  - apply (loops_raise_alike ds acc1 acc2) in Hq. congruence.
  - apply (loops_raise_alike ds acc1 acc2) in Hp. congruence.
  - split; intros [? ?]; discriminate.
Qed.

(** With the Boltzmann factors on hand and a usable denominator the mobile
    loop is a sequence of assignments for the mobile defects. *)
Lemma mobile_probabilities_loop_Ok (val : DefectAtSite.t -> R) ds acc :
  (forall d, d ∈ ds -> DefectAtSite.can_equilibrate d = true ->
             exists b, bfs !! DefectAtSite.label d = Some b /\ denom <> 0
                       /\ val d = Site.alpha s * DefectAtSite.mole_fraction d
                                  * b / denom) ->
  Site.mobile_probabilities_loop s bfs denom ds acc
  = Ok (fold_left (fun m d => <[DefectAtSite.label d := val d]> m)
                  (filter (fun d => DefectAtSite.can_equilibrate d = true) ds)
                  acc).
Proof.
  revert acc. induction ds as [|d ds IH]; intros acc Hall; [reflexivity|].
  cbn [Site.mobile_probabilities_loop]. rewrite filter_cons.
  assert (Hrest : forall d', d' ∈ ds -> DefectAtSite.can_equilibrate d' = true ->
             exists b, bfs !! DefectAtSite.label d' = Some b /\ denom <> 0
                       /\ val d' = Site.alpha s * DefectAtSite.mole_fraction d'
                                   * b / denom).
  { intros d' Hd'. apply Hall. by right. }
  destruct (DefectAtSite.can_equilibrate d) eqn:Hmob.
  - destruct (Hall d) as (b & Hb & Hden & Hval); [by left|done|].
    rewrite decide_True by done. unfold dict_get, py_div. rewrite Hb. cbn.
    destruct (decide (denom = 0)); [done|]. cbn. rewrite <- Hval. by apply IH.
  - rewrite decide_False by done. by apply IH.
Qed.

(** On a site whose mobile defects all have a Boltzmann factor in the
    dict, the loop can only fail by dividing by zero. *)
Lemma probabilities_loop_Raise_division ds acc e :
  (forall d, d ∈ ds -> DefectAtSite.can_equilibrate d = true ->
             is_Some (bfs !! DefectAtSite.label d)) ->
  Site.probabilities_loop s bfs denom ds acc = Raise e ->
  e = Exn ZeroDivisionError "float division by zero".
Proof.
  revert acc. induction ds as [|d ds IH]; intros acc Hkeys; [discriminate|].
  cbn [Site.probabilities_loop].
  assert (Hrest : forall d', d' ∈ ds -> DefectAtSite.can_equilibrate d' = true ->
                    is_Some (bfs !! DefectAtSite.label d')).
  { intros d' Hd'. apply Hkeys. by right. }
  destruct (DefectAtSite.can_equilibrate d) eqn:Hm; cbn [negb]; [|by apply IH].
  destruct (Hkeys d) as [b Hb]; [by left|done|].
  unfold dict_get, py_div. rewrite Hb. cbn.
  destruct (decide (denom = 0)); cbn; [by intros [= <-]|by apply IH].
Qed.
End MoreLoops.

(** X8. Whenever [probabilities] returns a mapping, its keys are exactly
    the labels of the site's defects, whatever the attributes of the site
    hold. *)
Theorem probabilities_keys_exact (bf : DefectAtSite.t -> R -> R -> R)
    (s : Site.t) (phi temp : R) (p : gmap string R) :
  Site.probabilities bf s phi temp = Ok p ->
  dom p = list_to_set (DefectAtSite.label <$> Site.defects s).
Proof.
  unfold Site.probabilities.
  destruct (Site.denominator bf s phi temp) as [den|e]; [|discriminate]. cbn.
  intros Hp. apply set_eq. intros k.
  rewrite elem_of_dom, elem_of_list_to_set.
  rewrite (probabilities_loop_keys _ _ _ _ _ _ k Hp).
  rewrite lookup_empty. split; [|tauto].
  intros [[v Hv]|Hk]; [discriminate|done].
Qed.

Lemma probabilities_keys_exact_witness :
  dom ({["B" := 0.05]} : gmap string R)
  = list_to_set (DefectAtSite.label <$> Site.defects site_B).
Proof.
  apply (probabilities_keys_exact bf_SI site_B 0 300 {["B" := 0.05]}).
  reflexivity.
Defined.

(** X9. Whenever [mobile_defect_probabilities] returns a mapping, its keys
    are exactly the labels of the defects that can equilibrate: a label
    borne by fixed defects only is never a key. *)
Theorem mobile_defect_probabilities_keys_exact
    (bf : DefectAtSite.t -> R -> R -> R) (s : Site.t) (phi temp : R)
    (q : gmap string R) :
  Site.mobile_defect_probabilities bf s phi temp = Ok q ->
  dom q = list_to_set (DefectAtSite.label <$> mobile_species s).
Proof.
  unfold Site.mobile_defect_probabilities.
  destruct (Site.denominator bf s phi temp) as [den|e]; [|discriminate]. cbn.
  intros Hq. apply set_eq. intros k.
  rewrite elem_of_dom, elem_of_list_to_set.
  rewrite (mobile_probabilities_loop_keys _ _ _ _ _ _ k Hq).
  rewrite lookup_empty, list_elem_of_fmap. unfold mobile_species. split.
  - intros [[v Hv]|(d & Hd & Hm & Hl)]; [discriminate|].
    exists d. split; [done|]. by apply list_elem_of_filter.
  - intros (d & -> & [Hm Hd]%list_elem_of_filter). right. by exists d.
Qed.

Lemma mobile_defect_probabilities_keys_exact_witness :
  dom (∅ : gmap string R)
  = list_to_set (DefectAtSite.label <$> mobile_species site_B).
Proof.
  apply (mobile_defect_probabilities_keys_exact bf_SI site_B 0 300 ∅).
  reflexivity.
Defined.

Section ConstructedMore.
Variable fundamental_charge : R.
Variable bf : DefectAtSite.t -> R -> R -> R.
Variables (label : string) (x : R) (species : list DefectSpecies.t)
          (energies : list R) (scaling : option ndarray) (valence sat : R).
Variable s : Site.t.
Hypothesis Hinit :
  Site.__init__ fundamental_charge label x species energies scaling valence sat
  = Ok s.

(** A returned mapping tells that the denominator was usable. *)
Lemma constructed_probabilities_Ok_denominator phi temp p :
  unique_labels s ->
  Site.probabilities bf s phi temp = Ok p ->
  mobile_species s <> [] -> spec_denominator (fun d => bf d phi temp) s <> 0.
Proof.
  intros Hu Hp Hmob Hzero.
  rewrite (constructed_probabilities_zero_denominator _ _ _ _ _ _ _ _ _ _
             Hinit phi temp Hu Hmob Hzero) in Hp.
  discriminate.
Qed.

Lemma constructed_mobile_probabilities phi temp :
  unique_labels s ->
  (mobile_species s <> [] -> spec_denominator (fun d => bf d phi temp) s <> 0) ->
  Site.mobile_defect_probabilities bf s phi temp
  = Ok (fold_left
          (fun m d =>
             <[DefectAtSite.label d := spec_probability (fun d => bf d phi temp) s d]> m)
          (mobile_species s) ∅).
Proof.
  intros Hu Hden. unfold Site.mobile_defect_probabilities.
  rewrite (constructed_denominator _ _ _ _ _ _ _ _ _ _ Hinit) by done. cbn.
  apply mobile_probabilities_loop_Ok.
  intros d Hd Hm.
  pose proof (constructed_mobile_elem _ _ _ _ _ _ _ _ _ Hinit d Hd Hm) as Hdm.
  exists (bf d phi temp). split; [|split].
  - apply boltzmann_factors_lookup; [|done].
    by apply (constructed_mobile_NoDup _ _ _ _ _ _ _ _ _ Hinit).
  - apply Hden.
    destruct (constructed_partition _ _ _ _ _ _ _ _ _ Hinit) as (_ & <- & _).
    intros Hnil. rewrite Hnil in Hdm. by apply elem_of_nil in Hdm.
  - unfold spec_probability. rewrite Hm.
    by destruct (constructed_partition _ _ _ _ _ _ _ _ _ Hinit) as (_ & _ & ->).
Qed.

Lemma constructed_loops_keys phi temp d :
  d ∈ Site.defects s -> DefectAtSite.can_equilibrate d = true ->
  is_Some (Site.boltzmann_factors bf s phi temp !! DefectAtSite.label d).
Proof.
  intros Hd Hm. apply boltzmann_factors_is_Some.
  by apply (constructed_mobile_elem _ _ _ _ _ _ _ _ _ Hinit).
Qed.
End ConstructedMore.

(** X10. On a constructed site with unique labels the two mappings agree:
    [mobile_defect_probabilities] fails exactly when [probabilities] fails,
    with the same exception, and otherwise holds for each mobile defect the
    value that [probabilities] holds, and nothing for a fixed defect. *)
Theorem mobile_defect_probabilities_agree (fundamental_charge : R)
    (bf : DefectAtSite.t -> R -> R -> R)
    (label : string) (x : R) (species : list DefectSpecies.t)
    (energies : list R) (scaling : option ndarray) (valence sat : R)
    (s : Site.t) (phi temp : R) :
  Site.__init__ fundamental_charge label x species energies scaling valence sat
  = Ok s ->
  unique_labels s ->
  (forall e, Site.probabilities bf s phi temp = Raise e
             <-> Site.mobile_defect_probabilities bf s phi temp = Raise e)
  /\ forall p q,
       Site.probabilities bf s phi temp = Ok p ->
       Site.mobile_defect_probabilities bf s phi temp = Ok q ->
       forall d, d ∈ Site.defects s ->
         q !! DefectAtSite.label d
         = if DefectAtSite.can_equilibrate d
           then p !! DefectAtSite.label d else None.
Proof.
  intros Hinit Hu. split.
  - intros e. unfold Site.probabilities, Site.mobile_defect_probabilities.
    destruct (Site.denominator bf s phi temp) as [den|e']; [|done]. cbn.
    apply loops_raise_alike.
  - intros p q Hp Hq d Hd.
    pose proof (constructed_probabilities_Ok_denominator _ _ _ _ _ _ _ _ _ _
                  Hinit phi temp p Hu Hp) as Hden.
    rewrite (constructed_probabilities _ _ _ _ _ _ _ _ _ _ Hinit phi temp Hu Hden)
      in Hp.
    rewrite (constructed_mobile_probabilities _ _ _ _ _ _ _ _ _ _ Hinit phi temp
               Hu Hden) in Hq.
    injection Hp as <-. injection Hq as <-.
    rewrite (fold_insert_NoDup DefectAtSite.label
               (spec_probability (fun d => bf d phi temp) s)
               (Site.defects s)) by done.
    destruct (DefectAtSite.can_equilibrate d) eqn:Hm.
    + apply (fold_insert_NoDup DefectAtSite.label
               (spec_probability (fun d => bf d phi temp) s)).
      * by apply NoDup_fmap_filter.
      * by apply list_elem_of_filter.
    + rewrite (fold_insert_notin DefectAtSite.label
                 (spec_probability (fun d => bf d phi temp) s)); [done|].
      intros (d' & Hl & [Hm' Hd']%list_elem_of_filter)%list_elem_of_fmap.
      assert (d = d') by by apply (NoDup_fmap_elem_inj DefectAtSite.label
                                     (Site.defects s)).
      congruence.
Qed.

Lemma mobile_defect_probabilities_agree_witness :
  (forall e, Site.probabilities bf_SI site_AB 0 300 = Raise e
             <-> Site.mobile_defect_probabilities bf_SI site_AB 0 300 = Raise e)
  /\ forall p q,
       Site.probabilities bf_SI site_AB 0 300 = Ok p ->
       Site.mobile_defect_probabilities bf_SI site_AB 0 300 = Ok q ->
       forall d, d ∈ Site.defects site_AB ->
         q !! DefectAtSite.label d
         = if DefectAtSite.can_equilibrate d
           then p !! DefectAtSite.label d else None.
Proof.
  apply (mobile_defect_probabilities_agree fundamental_charge_SI bf_SI "O" 0
           [species_A; species_B] [-0.5; 0] None 0 1 site_AB 0 300).
  - exact init_site_AB.
  - exact site_AB_unique_labels.
Defined.

(** X11. On a constructed site the only exception that [probabilities] and
    [mobile_defect_probabilities] can raise is [ZeroDivisionError]: every
    dict lookup they make finds its key. *)
Theorem probabilities_only_ZeroDivisionError (fundamental_charge : R)
    (bf : DefectAtSite.t -> R -> R -> R)
    (label : string) (x : R) (species : list DefectSpecies.t)
    (energies : list R) (scaling : option ndarray) (valence sat : R)
    (s : Site.t) (phi temp : R) (e : exn) :
  Site.__init__ fundamental_charge label x species energies scaling valence sat
  = Ok s ->
  Site.probabilities bf s phi temp = Raise e
  \/ Site.mobile_defect_probabilities bf s phi temp = Raise e ->
  e = Exn ZeroDivisionError "float division by zero".
Proof.
  intros Hinit Hraise.
  assert (Hp : Site.probabilities bf s phi temp = Raise e).
  { destruct Hraise as [Hp|Hq]; [done|].
    unfold Site.probabilities, Site.mobile_defect_probabilities in *.
    destruct (Site.denominator bf s phi temp) as [den|e']; [|done]. cbn in *.
    by eapply loops_raise_alike. }
  unfold Site.probabilities in Hp.
  destruct (denominator_is_Ok bf s phi temp) as [den Hden].
  rewrite Hden in Hp. cbn in Hp.
  eapply probabilities_loop_Raise_division; [|exact Hp].
  intros d Hd Hm. by eapply constructed_loops_keys.
Qed.

(** The site with a full fixed species and an empty mobile one: [alpha] and
    the denominator are both zero. *)
Lemma probabilities_only_ZeroDivisionError_witness :
  exists s,
    Site.__init__ fundamental_charge_SI "O" 0
      [DefectSpecies.Build "A" 1 0 1 true; DefectSpecies.Build "B" (-1) 1 1 false]
      [0; 0] None 0 1 = Ok s
    /\ Site.probabilities bf_SI s 0 300
       = Raise (Exn ZeroDivisionError "float division by zero").
Proof.
  eexists. split; [reflexivity|].
  assert (Hraise : exists e,
             Site.probabilities bf_SI
               (Site.Build "O" 0 [0; 0]
                  [DefectSpecies.Build "A" 1 0 1 true;
                   DefectSpecies.Build "B" (-1) 1 1 false]
                  [Site.make_defect (DefectSpecies.Build "A" 1 0 1 true) 0;
                   Site.make_defect (DefectSpecies.Build "B" (-1) 1 1 false) 0]
                  [1; 1] None 0 1
                  [Site.make_defect (DefectSpecies.Build "B" (-1) 1 1 false) 0]
                  [Site.make_defect (DefectSpecies.Build "A" 1 0 1 true) 0]
                  (1 - py_sum [1]) ((0 + 1 * -1) * fundamental_charge_SI))
               0 300 = Raise e).
  { unfold Site.probabilities, Site.denominator. cbn.
    unfold dict_get. rewrite lookup_insert_eq. cbn.
    unfold py_div. rewrite decide_True by (unfold py_sum; cbn; lra).
    by eexists. }
  destruct Hraise as [e He].
  rewrite (probabilities_only_ZeroDivisionError fundamental_charge_SI bf_SI "O" 0
             [DefectSpecies.Build "A" 1 0 1 true;
              DefectSpecies.Build "B" (-1) 1 1 false]
             [0; 0] None 0 1 _ 0 300 e (eq_refl _) (or_introl He)) in He.
  exact He.
Defined.

(** ** Sums of reals over a list *)

Lemma Rsum_ext {A} (f g : A -> R) (l : list A) :
  (forall v, v ∈ l -> f v = g v) -> Rsum (f <$> l) = Rsum (g <$> l).
Proof.
  induction l as [|v l IH]; intros Hfg; [reflexivity|].
  rewrite !fmap_cons. unfold Rsum in *. cbn [foldr].
  rewrite (Hfg v) by by left. rewrite IH; [done|].
  intros w Hw. apply Hfg. by right.
Qed.

Lemma Rsum_scale {A} (c : R) (f : A -> R) (l : list A) :
  Rsum ((fun v => c * f v) <$> l) = c * Rsum (f <$> l).
Proof.
  induction l as [|v l IH]; [unfold Rsum; cbn; lra|].
  rewrite !fmap_cons. unfold Rsum in *. cbn [foldr]. rewrite IH. lra.
Qed.

Lemma Rsum_minus {A} (f g : A -> R) (l : list A) :
  Rsum ((fun v => f v - g v) <$> l) = Rsum (f <$> l) - Rsum (g <$> l).
Proof.
  induction l as [|v l IH]; [unfold Rsum; cbn; lra|].
  rewrite !fmap_cons. unfold Rsum in *. cbn [foldr]. rewrite IH. lra.
Qed.

Lemma Rsum_nonneg {A} (f : A -> R) (l : list A) :
  (forall v, v ∈ l -> 0 <= f v) -> 0 <= Rsum (f <$> l).
Proof.
  induction l as [|v l IH]; intros Hpos; [unfold Rsum; cbn; lra|].
  rewrite fmap_cons. unfold Rsum in *. cbn [foldr].
  pose proof (Hpos v ltac:(by left)).
  assert (0 <= foldr Rplus 0 (f <$> l)).
  { apply IH. intros w Hw. apply Hpos. by right. }
  lra.
Qed.

Lemma Rsum_partition {A} (f : A -> R) (c : A -> bool) (l : list A) :
  Rsum (f <$> l)
  = Rsum (f <$> filter (fun v => c v = false) l)
    + Rsum (f <$> filter (fun v => c v = true) l).
Proof.
  induction l as [|v l IH]; [unfold Rsum; cbn; lra|].
  rewrite !filter_cons, fmap_cons. destruct (c v).
  - rewrite decide_False by done. rewrite decide_True by done.
    rewrite fmap_cons. unfold Rsum in *. cbn [foldr]. rewrite IH. lra.
  - rewrite decide_True by done. rewrite decide_False by done.
    rewrite fmap_cons. unfold Rsum in *. cbn [foldr]. rewrite IH. lra.
Qed.

(** X12. Occupation never exceeds the saturation parameter.  On a
    constructed site with unique labels, non-negative mole fractions,
    positive Boltzmann factors, mobile mole fractions that sum to at most
    [alpha] and a non-zero denominator, [probabilities] returns
    non-negative values whose sum over all defects is at most
    [saturation_parameter], and exactly [saturation_parameter] when the
    mobile mole fractions sum to [alpha]. *)
Theorem occupation_bounded (fundamental_charge : R)
    (bf : DefectAtSite.t -> R -> R -> R)
    (label : string) (x : R) (species : list DefectSpecies.t)
    (energies : list R) (scaling : option ndarray) (valence sat : R)
    (s : Site.t) (phi temp : R) :
  Site.__init__ fundamental_charge label x species energies scaling valence sat
  = Ok s ->
  unique_labels s ->
  (forall d, d ∈ Site.defects s -> 0 <= DefectAtSite.mole_fraction d) ->
  (forall d, d ∈ Site.defects s -> 0 < bf d phi temp) ->
  Rsum (DefectAtSite.mole_fraction <$> mobile_species s) <= spec_alpha s ->
  spec_denominator (fun d => bf d phi temp) s <> 0 ->
  exists p,
    Site.probabilities bf s phi temp = Ok p
    /\ (forall d, d ∈ Site.defects s ->
          0 <= default 0 (p !! DefectAtSite.label d))
    /\ occupation_sum p (Site.defects s) <= Site.saturation_parameter s
    /\ (Rsum (DefectAtSite.mole_fraction <$> mobile_species s) = spec_alpha s ->
        occupation_sum p (Site.defects s) = Site.saturation_parameter s).
Proof.
  intros Hinit Hu Hmf Hbf Hbudget Hden.
  set (b := fun d => bf d phi temp) in *.
  set (A := spec_alpha s) in *.
  set (D := spec_denominator b s) in *.
  set (S0 := Rsum (DefectAtSite.mole_fraction <$> mobile_species s)) in *.
  set (S1 := Rsum ((fun d => DefectAtSite.mole_fraction d * b d)
                     <$> mobile_species s)).
  assert (HS0 : 0 <= S0).
  { apply Rsum_nonneg. intros d [_ Hd]%list_elem_of_filter. by apply Hmf. }
  assert (HS1 : 0 <= S1).
  { apply Rsum_nonneg. intros d [_ Hd]%list_elem_of_filter.
    apply Rmult_le_pos; [by apply Hmf|]. apply Rlt_le. by apply Hbf. }
  assert (HD : D = A + S1 - S0).
  { unfold D, spec_denominator. fold A.
    rewrite (Rsum_ext _ (fun d => DefectAtSite.mole_fraction d * b d
                                  - DefectAtSite.mole_fraction d))
      by (intros; ring).
    rewrite Rsum_minus. fold S1. fold S0. ring. }
  assert (HDpos : 0 < D) by lra.
  assert (HA : 0 <= A) by lra.
  set (t := (D - S1) * / D).
  assert (Ht : 0 <= t).
  { apply Rle_mult_inv_pos; lra. }
  assert (Ht0 : S0 = A -> t = 0).
  { intros Heq. unfold t. replace (D - S1) with 0 by lra. ring. }
  assert (Hquot : A * S1 / D = A - A * t).
  { unfold t. field. lra. }
  pose proof (Rmult_le_pos A t HA Ht) as HAt.
  set (P := fold_left
              (fun m d => <[DefectAtSite.label d := spec_probability b s d]> m)
              (Site.defects s) (∅ : gmap string R)).
  assert (Hlook : forall d, d ∈ Site.defects s ->
            default 0 (P !! DefectAtSite.label d) = spec_probability b s d).
  { intros d Hd. unfold P.
    by rewrite (fold_insert_NoDup DefectAtSite.label (spec_probability b s)). }
  assert (Hsum : occupation_sum P (Site.defects s)
                 = Site.saturation_parameter s - A * t).
  { unfold occupation_sum. rewrite (Rsum_ext _ (spec_probability b s)) by done.
    rewrite (Rsum_partition _ DefectAtSite.can_equilibrate).
    fold (fixed_species s). fold (mobile_species s).
    rewrite (Rsum_ext (spec_probability b s) DefectAtSite.mole_fraction
               (fixed_species s)).
    2:{ intros d [Hm _]%list_elem_of_filter. unfold spec_probability.
        by rewrite Hm. }
    rewrite (Rsum_ext (spec_probability b s)
               (fun d => A / D * (DefectAtSite.mole_fraction d * b d))
               (mobile_species s)).
    2:{ intros d [Hm _]%list_elem_of_filter. unfold spec_probability.
        rewrite Hm. fold A. fold D. field. lra. }
    rewrite Rsum_scale. fold S1.
    replace (A / D * S1) with (A * S1 / D) by (field; lra).
    rewrite Hquot. unfold A at 1, spec_alpha. ring. }
  exists P. split.
  { eapply constructed_probabilities; [exact Hinit|done|]. intros _. exact Hden. }
  split; [|split].
  - intros d Hd. rewrite Hlook by done. unfold spec_probability.
    destruct (DefectAtSite.can_equilibrate d); [|by apply Hmf].
    fold A. fold D. unfold Rdiv. apply Rle_mult_inv_pos; [|done].
    apply Rmult_le_pos; [apply Rmult_le_pos; [done|by apply Hmf]|].
    apply Rlt_le. by apply Hbf.
  - rewrite Hsum. lra.
  - intros Heq. rewrite Hsum, (Ht0 Heq). ring.
Qed.

(** On the worked example, at [phi = 0] and [temp = 300]. *)
Lemma occupation_bounded_witness :
  exists p,
    Site.probabilities bf_SI site_AB 0 300 = Ok p
    /\ (forall d, d ∈ Site.defects site_AB ->
          0 <= default 0 (p !! DefectAtSite.label d))
    /\ occupation_sum p (Site.defects site_AB) <= Site.saturation_parameter site_AB
    /\ (Rsum (DefectAtSite.mole_fraction <$> mobile_species site_AB)
        = spec_alpha site_AB ->
        occupation_sum p (Site.defects site_AB)
        = Site.saturation_parameter site_AB).
Proof.
  apply (occupation_bounded fundamental_charge_SI bf_SI "O" 0
           [species_A; species_B] [-0.5; 0] None 0 1 site_AB 0 300).
  - exact init_site_AB.
  - exact site_AB_unique_labels.
  - intros d Hd. cbn in Hd.
    apply elem_of_cons in Hd as [->|Hd]; [cbn; lra|].
    apply list_elem_of_singleton in Hd. subst d. cbn. lra.
  - intros d _. apply exp_pos.
  - unfold spec_alpha, fixed_species, mobile_species. cbn. run_filters.
    unfold Rsum. cbn. lra.
  - exact site_AB_denominator.
Defined.

(** X13. On a constructed site with unique labels, where the site has no
    mobile species or the denominator is not zero, the legacy list holds
    the occupation value of each defect, in the order of [defects]. *)
Theorem probabilities_as_list_values (fundamental_charge : R)
    (bf : DefectAtSite.t -> R -> R -> R)
    (label : string) (x : R) (species : list DefectSpecies.t)
    (energies : list R) (scaling : option ndarray) (valence sat : R)
    (s : Site.t) (phi temp : R) :
  Site.__init__ fundamental_charge label x species energies scaling valence sat
  = Ok s ->
  unique_labels s ->
  mobile_species s = [] \/ spec_denominator (fun d => bf d phi temp) s <> 0 ->
  snd (Site.probabilities_as_list bf s phi temp)
  = Ok (spec_probability (fun d => bf d phi temp) s <$> Site.defects s).
Proof.
  intros Hinit Hu Hcase. unfold Site.probabilities_as_list. cbn [snd].
  rewrite (constructed_probabilities _ _ _ _ _ _ _ _ _ _ Hinit phi temp Hu)
    by (intros Hmob; destruct Hcase; done).
  cbn. apply mapM_Ok. intros d Hd. unfold dict_get.
  by rewrite (fold_insert_NoDup DefectAtSite.label
                (spec_probability (fun d => bf d phi temp) s)).
Qed.

Lemma probabilities_as_list_values_witness :
  snd (Site.probabilities_as_list bf_SI site_AB 0 300)
  = Ok (spec_probability (fun d => bf_SI d 0 300) site_AB
          <$> Site.defects site_AB).
Proof.
  apply (probabilities_as_list_values fundamental_charge_SI bf_SI "O" 0
           [species_A; species_B] [-0.5; 0] None 0 1 site_AB 0 300).
  - exact init_site_AB.
  - exact site_AB_unique_labels.
  - right. exact site_AB_denominator.
Defined.

(** ** Charge on constructed sites *)

(** X14. The array that [charge] builds has one entry per defect, and only
    a one-entry array converts to [float]: on a constructed site whose
    number of species is not one, [charge] raises [TypeError] whenever
    [probabilities] returns. *)
Theorem charge_needs_one_species (fundamental_charge : R)
    (bf : DefectAtSite.t -> R -> R -> R)
    (label : string) (x : R) (species : list DefectSpecies.t)
    (energies : list R) (scaling : option ndarray) (valence sat : R)
    (s : Site.t) (phi temp : R) :
  Site.__init__ fundamental_charge label x species energies scaling valence sat
  = Ok s ->
  length species <> 1%nat ->
  is_Ok (Site.probabilities bf s phi temp) ->
  Site.charge fundamental_charge bf s phi temp
  = Raise (Exn TypeError
             "only length-1 arrays can be converted to Python scalars").
Proof.
  intros Hinit Hlen [p Hp].
  apply (charge_TypeError _ _ _ _ _ p Hp).
  destruct (init_inv _ _ _ _ _ _ _ _ _ Hinit)
    as (Hle & Hdef & _ & _ & _ & _ & _ & _ & _ & Hsc).
  rewrite Hsc, Hdef, length_zip_with. lia.
Qed.

(** The two-species worked example. *)
Lemma charge_needs_one_species_witness :
  Site.charge fundamental_charge_SI bf_SI site_AB 0 300
  = Raise (Exn TypeError
             "only length-1 arrays can be converted to Python scalars").
Proof.
  apply (charge_needs_one_species fundamental_charge_SI bf_SI "O" 0
           [species_A; species_B] [-0.5; 0] None 0 1 site_AB 0 300).
  - exact init_site_AB.
  - cbn. lia.
  - destruct worked_example_AB as (p & Hp & _). by exists p.
Defined.

Lemma loops_equal_all_mobile (s : Site.t) (bfs : gmap string R) (denom : R)
    (ds : list DefectAtSite.t) (acc : gmap string R) :
  (forall d, d ∈ ds -> DefectAtSite.can_equilibrate d = true) ->
  Site.mobile_probabilities_loop s bfs denom ds acc
  = Site.probabilities_loop s bfs denom ds acc.
Proof.
  revert acc. induction ds as [|d ds IH]; intros acc Hall; [reflexivity|].
  cbn [Site.probabilities_loop Site.mobile_probabilities_loop].
  rewrite (Hall d) by by left. cbn [negb].
  destruct (dict_get bfs (DefectAtSite.label d)) as [b|e]; [|reflexivity]. cbn.
  destruct (py_div _ denom) as [q|e]; [|reflexivity]. cbn.
  apply IH. intros d' Hd'. apply Hall. by right.
Qed.

(** X15. On a site all of whose defects can equilibrate, the mobile-only
    mapping is the full mapping, and whenever [charge_from_mobile_defects]
    returns [w], [charge] returns [w] plus [fundamental_charge] times the
    site valence. *)
Theorem charge_mobile_only (fundamental_charge : R)
    (bf : DefectAtSite.t -> R -> R -> R) (s : Site.t) (phi temp : R) :
  (forall d, d ∈ Site.defects s -> DefectAtSite.can_equilibrate d = true) ->
  Site.mobile_defect_probabilities bf s phi temp
  = Site.probabilities bf s phi temp
  /\ forall w,
       Site.charge_from_mobile_defects fundamental_charge bf s phi temp = Ok w ->
       Site.charge fundamental_charge bf s phi temp
       = Ok (w + Site.valence s * fundamental_charge).
Proof.
  intros Hall.
  assert (Heq : Site.mobile_defect_probabilities bf s phi temp
                = Site.probabilities bf s phi temp).
  { unfold Site.mobile_defect_probabilities, Site.probabilities.
    destruct (Site.denominator bf s phi temp) as [den|e]; [|reflexivity]. cbn.
    by apply loops_equal_all_mobile. }
  split; [exact Heq|].
  intros w. unfold Site.charge_from_mobile_defects, Site.charge. rewrite Heq.
  destruct (Site.probabilities bf s phi temp) as [p|e]; [|discriminate]. cbn.
  destruct (Site.weighted_valences p (Site.defects s)) as [total|e];
    [|discriminate]. cbn.
  destruct (Site.scaling s) as [|sc [|sc' rest]]; cbn; try discriminate.
  intros [= <-]. f_equal. ring.
Qed.

(** On the site holding the mobile species [A] alone. *)
Lemma charge_mobile_only_witness :
  Site.mobile_defect_probabilities bf_SI site_A 0 300
  = Site.probabilities bf_SI site_A 0 300
  /\ forall w,
       Site.charge_from_mobile_defects fundamental_charge_SI bf_SI site_A 0 300
       = Ok w ->
       Site.charge fundamental_charge_SI bf_SI site_A 0 300
       = Ok (w + Site.valence site_A * fundamental_charge_SI).
Proof.
  apply (charge_mobile_only fundamental_charge_SI bf_SI site_A 0 300).
  intros d Hd. cbn in Hd. apply list_elem_of_singleton in Hd. by subst d.
Defined.

(** ** Construction from a site-data record *)

Lemma find_some_intro {A} (f : A -> bool) (l : list A) (v : A) :
  v ∈ l -> f v = true -> exists w, List.find f l = Some w.
Proof.
  induction l as [|u l IH]; intros Hv Hf; [by apply elem_of_nil in Hv|].
  cbn. destruct (f u) eqn:Hu; [by eexists|].
  apply elem_of_cons in Hv as [->|Hv]; [congruence|]. by apply IH.
Qed.

Lemma init_raises_ValueError (fundamental_charge : R) (label : string) (x : R)
    (species : list DefectSpecies.t) (energies : list R)
    (scaling : option ndarray) (valence sat : R) (e : exn) :
  Site.__init__ fundamental_charge label x species energies scaling valence sat
  = Raise e ->
  exn_kind e = ValueError.
Proof.
  unfold Site.__init__.
  destruct (negb (length species =? length energies)%nat);
    [by intros [= <-]|].
  destruct scaling as [[|v [|v' rest]]|]; cbn; try discriminate.
  - destruct (bool_decide (v <> 0)); cbn; [|discriminate].
    destruct (negb (length species =? 1)%nat); cbn; [|discriminate].
    by intros [= <-].
  - by intros [= <-].
Qed.

(** X16. [from_site_data] builds no site when the record names a label
    that no species of the list carries: it raises [ValueError]. *)
Theorem from_site_data_missing_label (fundamental_charge : R)
    (site_data : SiteData.t) (defect_species : list DefectSpecies.t)
    (kwargs : gmap string py_value) (l : string) :
  l ∈ (DefectData.label <$> SiteData.defect_data site_data) ->
  l ∉ (DefectSpecies.label <$> defect_species) ->
  exists msg,
    Site.from_site_data fundamental_charge site_data defect_species kwargs
    = Raise (Exn ValueError msg).
Proof.
  intros Hl Hmissing. unfold Site.from_site_data.
  destruct (find_some_intro
              (fun l => bool_decide
                 (l ∉@{gset string}
                    list_to_set (DefectSpecies.label
                                   <$> Site.defect_species_to_pass site_data
                                         defect_species)))
              (elements (Site.defect_species_labels site_data)) l)
    as [w Hw].
  - apply elem_of_elements. unfold Site.defect_species_labels.
    by apply elem_of_list_to_set.
  - apply bool_decide_eq_true.
    intros (ds & -> & [_ Hds]%list_elem_of_filter)%elem_of_list_to_set%list_elem_of_fmap.
    apply Hmissing. by apply list_elem_of_fmap_2.
  - rewrite Hw. by eexists.
Qed.

(** A record naming [B], offered the species [A] alone. *)
Lemma from_site_data_missing_label_witness :
  exists msg,
    Site.from_site_data fundamental_charge_SI site_data_B [species_A] ∅
    = Raise (Exn ValueError msg).
Proof.
  apply (from_site_data_missing_label fundamental_charge_SI site_data_B
           [species_A] ∅ "B").
  - cbn. by apply list_elem_of_singleton.
  - cbn. intros Hin%list_elem_of_singleton. discriminate.
Defined.

(** X17. Every failure of [from_site_data] is a [ValueError], whether it
    comes from the label check or from the constructor. *)
Theorem from_site_data_raises_ValueError (fundamental_charge : R)
    (site_data : SiteData.t) (defect_species : list DefectSpecies.t)
    (kwargs : gmap string py_value) (e : exn) :
  Site.from_site_data fundamental_charge site_data defect_species kwargs
  = Raise e ->
  exn_kind e = ValueError.
Proof.
  unfold Site.from_site_data.
  destruct (List.find _ _) as [l|]; [by intros [= <-]|].
  apply init_raises_ValueError.
Qed.

(** A record that names [B] twice: one species is selected for two
    energies, and the constructor rejects the lengths. *)
Lemma from_site_data_raises_ValueError_witness :
  exn_kind
    (Exn ValueError "len(defect_species) must be equal to len(defect_energies)")
  = ValueError.
Proof.
  apply (from_site_data_raises_ValueError fundamental_charge_SI
           (SiteData.Build "O" 0 1 [DefectData.Build "B" 0; DefectData.Build "B" 1])
           [species_B] ∅).
  reflexivity.
Defined.

(** X18. [from_site_data] pairs species and energies by position, not by
    label: species are kept in the order of the species list, energies in
    the order of the record.  For a record that lists [a] then [b] and a
    species list that holds [b] then [a], the defect labelled [b] receives
    the energy recorded for [a], and the other way round. *)
Theorem from_site_data_pairs_by_position (fundamental_charge : R)
    (a b : DefectSpecies.t) (ea eb : R) (label : string) (x valence : R)
    (kwargs : gmap string py_value) :
  DefectSpecies.label a <> DefectSpecies.label b ->
  exists s,
    Site.from_site_data fundamental_charge
      (SiteData.Build label x valence
         [DefectData.Build (DefectSpecies.label a) ea;
          DefectData.Build (DefectSpecies.label b) eb])
      [b; a] kwargs = Ok s
    /\ Site.defects s = [Site.make_defect b ea; Site.make_defect a eb].
Proof.
  intros Hab.
  set (sd := SiteData.Build label x valence
               [DefectData.Build (DefectSpecies.label a) ea;
                DefectData.Build (DefectSpecies.label b) eb]).
  assert (Hc : compatible sd [b; a]).
  { unfold compatible, sd. cbn. repeat split.
    - apply NoDup_cons. split; [by intros Hin%list_elem_of_singleton|].
      apply NoDup_singleton.
    - apply NoDup_cons. split; [by intros Hin%list_elem_of_singleton|].
      apply NoDup_singleton.
    - intros l. rewrite !elem_of_cons, !elem_of_nil. tauto. }
  assert (Hpass : Site.defect_species_to_pass sd [b; a] = [b; a]).
  { unfold Site.defect_species_to_pass, Site.defect_species_labels, sd.
    rewrite !filter_cons, filter_nil.
    rewrite !decide_True; [done| |];
      apply elem_of_list_to_set; cbn; rewrite !elem_of_cons; tauto. }
  rewrite (from_site_data_unfold fundamental_charge sd [b; a] Hc kwargs), Hpass.
  eexists. split; [reflexivity|reflexivity].
Qed.

(** The species [A] and [B] with energies [0.5] and [0.7]. *)
Lemma from_site_data_pairs_by_position_witness :
  exists s,
    Site.from_site_data fundamental_charge_SI
      (SiteData.Build "O" 0 0
         [DefectData.Build (DefectSpecies.label species_A) 0.5;
          DefectData.Build (DefectSpecies.label species_B) 0.7])
      [species_B; species_A] ∅ = Ok s
    /\ Site.defects s
       = [Site.make_defect species_B 0.5; Site.make_defect species_A 0.7].
Proof.
  apply (from_site_data_pairs_by_position fundamental_charge_SI species_A
           species_B 0.5 0.7 "O" 0 0 ∅).
  discriminate.
Defined.

(** ** [practice.py]: the nearest grid value *)

Section BisectSpec.
Variables (a : list R) (x : R).
Hypothesis a_sorted : sorted a.

(** With enough rounds the search ends at the insertion point: everything
    to its left is below [x], everything from it on is at least [x]. *)
Lemma bisect_loop_spec fuel lo hi :
  (lo <= hi)%nat -> (hi <= length a)%nat -> (hi - lo <= fuel)%nat ->
  (forall i v, (i < lo)%nat -> a !! i = Some v -> v < x) ->
  (forall i v, (hi <= i)%nat -> a !! i = Some v -> x <= v) ->
  (forall i v, (i < bisect_loop fuel a x lo hi)%nat -> a !! i = Some v -> v < x)
  /\ (forall i v, (bisect_loop fuel a x lo hi <= i)%nat -> a !! i = Some v ->
                  x <= v).
Proof.
  revert lo hi. induction fuel as [|fuel IH]; intros lo hi Hlo Hhi Hfuel Hl Hr.
  - cbn. split; [done|]. intros i v Hi. apply Hr. lia.
  - cbn [bisect_loop]. destruct (Nat.ltb_spec lo hi) as [Hlt|Hge].
    2:{ split; [done|]. intros i v Hi. apply Hr. lia. }
    assert (Hmid : ((lo + hi) / 2 < hi)%nat).
    { apply Nat.Div0.div_lt_upper_bound. lia. }
    assert (Hmid' : (lo <= (lo + hi) / 2)%nat).
    { apply Nat.div_le_lower_bound; lia. }
    destruct (lookup_lt_is_Some_2 a ((lo + hi) / 2)) as [v Hv]; [lia|].
    rewrite Hv. destruct (Rlt_dec v x) as [Hvx|Hvx].
    + apply IH; [lia|lia|lia| |done].
      intros i w Hi Hw. apply Rle_lt_trans with v; [|done].
      apply (a_sorted i ((lo + hi) / 2)%nat); [lia|done|done].
    + apply IH; [lia|lia|lia|done|].
      intros i w Hi Hw. apply Rle_trans with v; [lra|].
      apply (a_sorted ((lo + hi) / 2)%nat i); [lia|done|done].
Qed.

Lemma bisect_left_spec :
  (forall i v, (i < bisect_left a x)%nat -> a !! i = Some v -> v < x)
  /\ (forall i v, (bisect_left a x <= i)%nat -> a !! i = Some v -> x <= v).
Proof.
  unfold bisect_left. apply bisect_loop_spec; [lia|lia|lia| |].
  - intros i v Hi. lia.
  - intros i v Hi Hv. apply lookup_lt_Some in Hv. lia.
Qed.
End BisectSpec.

(** X19. On a sorted grid, for [x] not above every grid value,
    [closest_index] returns the position of a grid value closest to [x],
    and of the smaller one when two are equally close. *)
Theorem closest_index_is_closest (grid : list R) (x v : R) :
  sorted grid -> v ∈ grid -> x <= v ->
  exists i c,
    closest_index grid x = Ok i
    /\ grid !! i = Some c
    /\ (forall j w, grid !! j = Some w -> Rabs (c - x) <= Rabs (w - x))
    /\ (forall j w, grid !! j = Some w -> Rabs (w - x) = Rabs (c - x) -> c <= w).
Proof.
  intros Hsorted Hv Hxv.
  pose proof (bisect_left_in_range grid x Hsorted v Hv Hxv) as Hpos.
  destruct (bisect_left_spec grid x Hsorted) as [Hleft Hright].
  unfold closest_index.
  destruct (Nat.eqb_spec (bisect_left grid x) 0) as [H0|H0].
  - destruct (lookup_lt_is_Some_2 grid 0) as [c Hc]; [lia|].
    exists 0%nat, c. split; [done|]. split; [done|].
    assert (Hge : forall j w, grid !! j = Some w -> x <= c /\ c <= w).
    { intros j w Hw. split; [apply (Hright 0%nat); [lia|done]|].
      apply (Hsorted 0%nat j); [lia|done|done]. }
    split.
    + intros j w Hw. destruct (Hge j w Hw).
      rewrite !Rabs_right by lra. lra.
    + intros j w Hw _. by destruct (Hge j w Hw).
  - destruct (Nat.eqb_spec (bisect_left grid x) (length grid)) as [Hl|Hl]; [lia|].
    unfold list_get.
    destruct (lookup_lt_is_Some_2 grid (bisect_left grid x - 1))
      as [before Hb]; [lia|].
    destruct (lookup_lt_is_Some_2 grid (bisect_left grid x)) as [after Ha]; [lia|].
    rewrite Hb, Ha. cbn.
    assert (Hbx : before < x) by (apply (Hleft (bisect_left grid x - 1)%nat); [lia|done]).
    assert (Hax : x <= after) by (apply (Hright (bisect_left grid x)); [lia|done]).
    assert (Hcases : forall j w, grid !! j = Some w ->
                       (w <= before /\ w < x) \/ (after <= w /\ x <= w)).
    { intros j w Hw. destruct (Nat.lt_ge_cases j (bisect_left grid x)) as [Hj|Hj].
      - left. split; [|by apply (Hleft j)].
        apply (Hsorted j (bisect_left grid x - 1)%nat); [lia|done|done].
      - right. split; [|by apply (Hright j)].
        apply (Hsorted (bisect_left grid x) j); [lia|done|done]. }
    destruct (Rlt_dec (after - x) (x - before)) as [Hnear|Hnear].
    + exists (bisect_left grid x), after. split; [done|]. split; [done|]. split.
      * intros j w Hw. rewrite (Rabs_right (after - x)) by lra.
        destruct (Hcases j w Hw) as [[? ?]|[? ?]].
        -- rewrite Rabs_left by lra. lra.
        -- rewrite Rabs_right by lra. lra.
      * intros j w Hw. rewrite (Rabs_right (after - x)) by lra.
        destruct (Hcases j w Hw) as [[? ?]|[? ?]]; [|lra].
        rewrite Rabs_left by lra. lra.
    + exists (bisect_left grid x - 1)%nat, before.
      split; [done|]. split; [done|]. split.
      * intros j w Hw. rewrite (Rabs_left (before - x)) by lra.
        destruct (Hcases j w Hw) as [[? ?]|[? ?]].
        -- rewrite Rabs_left by lra. lra.
        -- rewrite Rabs_right by lra. lra.
      * intros j w Hw. rewrite (Rabs_left (before - x)) by lra.
        destruct (Hcases j w Hw) as [[? ?]|[? ?]]; [|lra].
        rewrite Rabs_left by lra. lra.
Qed.

Lemma sorted_1_3 : sorted [1; 3].
Proof.
  intros [|[|i]] [|[|j]] a b Hij Ha Hb; cbn in *; simplify_eq; try lra; lia.
Qed.

(** On the grid [[1; 3]] with [x = 2], equally far from both values. *)
Lemma closest_index_is_closest_witness :
  exists i c,
    closest_index [1; 3] 2 = Ok i
    /\ [1; 3] !! i = Some c
    /\ (forall j w, [1; 3] !! j = Some w -> Rabs (c - 2) <= Rabs (w - 2))
    /\ (forall j w, [1; 3] !! j = Some w -> Rabs (w - 2) = Rabs (c - 2) -> c <= w).
Proof.
  apply (closest_index_is_closest [1; 3] 2 3).
  - exact sorted_1_3.
  - set_solver.
  - lra.
Defined.

(** X20. On a sorted grid, for [x] not above every grid value and [phi] as
    long as the grid, [phi_at_x] raises nothing: it returns the entry of
    [phi] at the position that [closest_index] gives. *)
Theorem phi_at_x_in_range (phi grid : list R) (x v : R) :
  sorted grid -> v ∈ grid -> x <= v -> length phi = length grid ->
  exists i r,
    closest_index grid x = Ok i
    /\ phi !! i = Some r
    /\ phi_at_x phi grid x = Ok r.
Proof.
  intros Hsorted Hv Hxv Hlen.
  destruct (closest_index_in_range grid x Hsorted v Hv Hxv) as (i & Hi & Hlt).
  destruct (lookup_lt_is_Some_2 phi i) as [r Hr]; [lia|].
  exists i, r. split; [done|]. split; [done|].
  unfold phi_at_x, index_of_grid_at_x. rewrite Hi. cbn.
  unfold list_get. by rewrite Hr.
Qed.

Lemma phi_at_x_in_range_witness :
  exists i r,
    closest_index [1; 3] 2 = Ok i
    /\ [5; 7] !! i = Some r
    /\ phi_at_x [5; 7] [1; 3] 2 = Ok r.
Proof.
  apply (phi_at_x_in_range [5; 7] [1; 3] 2 3).
  - exact sorted_1_3.
  - set_solver.
  - lra.
  - reflexivity.
Defined.

Lemma bisect_loop_bounds (a : list R) (x : R) fuel lo hi :
  (lo <= hi)%nat -> (lo <= bisect_loop fuel a x lo hi <= hi)%nat.
Proof.
  revert lo hi. induction fuel as [|fuel IH]; intros lo hi Hlo; [cbn; lia|].
  cbn [bisect_loop]. destruct (Nat.ltb_spec lo hi) as [Hlt|Hge]; [|lia].
  assert (Hmid : ((lo + hi) / 2 < hi)%nat).
  { apply Nat.Div0.div_lt_upper_bound. lia. }
  assert (Hmid' : (lo <= (lo + hi) / 2)%nat).
  { apply Nat.div_le_lower_bound; lia. }
  destruct (a !! ((lo + hi) / 2)%nat) as [v|]; [|lia].
  destruct (Rlt_dec v x).
  - pose proof (IH ((lo + hi) / 2 + 1)%nat hi). lia.
  - pose proof (IH lo ((lo + hi) / 2)%nat). lia.
Qed.

(** X21. [closest_index] never raises, whatever the list (sorted or not,
    empty or not), and its result is at most the length of the list; on
    the empty list it is [0]. *)
Theorem closest_index_total (grid : list R) (x : R) :
  exists i,
    closest_index grid x = Ok i
    /\ (i <= length grid)%nat
    /\ (grid = [] -> i = 0%nat).
Proof.
  pose proof (bisect_loop_bounds grid x (length grid) 0 (length grid)
                ltac:(lia)) as Hb.
  fold (bisect_left grid x) in Hb. unfold closest_index.
  destruct (Nat.eqb_spec (bisect_left grid x) 0) as [H0|H0].
  - exists 0%nat. split; [done|]. split; [lia|done].
  - destruct (Nat.eqb_spec (bisect_left grid x) (length grid)) as [Hl|Hl].
    + exists (length grid). split; [done|]. split; [lia|]. by intros ->.
    + unfold list_get.
      destruct (lookup_lt_is_Some_2 grid (bisect_left grid x - 1))
        as [before Hbf]; [lia|].
      destruct (lookup_lt_is_Some_2 grid (bisect_left grid x)) as [after Ha]; [lia|].
      rewrite Hbf, Ha. cbn.
      destruct (Rlt_dec (after - x) (x - before)); eexists;
        (split; [done|]); (split; [lia|]); intros ->; cbn in *; lia.
Qed.

(** ** Charge where it returns *)

(** X22. On a site whose defects can all equilibrate and whose [scaling]
    holds a single entry [sc], [charge_from_mobile_defects] returns
    [fundamental_charge * sc * S], where [S] is the sum over the defects of
    [p[d.label] * d.valence] for the mapping [p] of
    [mobile_defect_probabilities]. *)
Theorem charge_from_mobile_defects_formula (fundamental_charge : R)
    (bf : DefectAtSite.t -> R -> R -> R) (s : Site.t) (phi temp sc : R)
    (q : gmap string R) :
  (forall d, d ∈ Site.defects s -> DefectAtSite.can_equilibrate d = true) ->
  Site.scaling s = [sc] ->
  Site.mobile_defect_probabilities bf s phi temp = Ok q ->
  Site.charge_from_mobile_defects fundamental_charge bf s phi temp
  = Ok (fundamental_charge * sc * valence_sum q (Site.defects s)).
Proof.
  intros Hall Hsc Hq. unfold Site.charge_from_mobile_defects. rewrite Hq. cbn.
  rewrite weighted_valences_Ok.
  - rewrite Hsc. cbn. f_equal. ring.
  - intros d Hd. apply (mobile_defect_probabilities_keys _ _ _ _ _ _ Hq).
    exists d. split; [done|]. split; [by apply Hall|done].
Qed.

(** On the site holding the mobile species [A] alone: the denominator is
    [1] and the mapping is [{A: 1 * 0.1 * bf / 1}]. *)
Lemma charge_from_mobile_defects_formula_witness :
  exists q,
    Site.mobile_defect_probabilities bf_SI site_A 0 300 = Ok q
    /\ Site.charge_from_mobile_defects fundamental_charge_SI bf_SI site_A 0 300
       = Ok (fundamental_charge_SI * 1 * valence_sum q (Site.defects site_A)).
Proof.
  assert (Hq : is_Ok (Site.mobile_defect_probabilities bf_SI site_A 0 300)).
  { unfold Site.mobile_defect_probabilities, Site.denominator. cbn.
    unfold dict_get. rewrite lookup_insert_eq. cbn.
    unfold py_div. rewrite decide_False; [by eexists|].
    unfold bf_SI. rewrite boltzmann_factor_unit by done.
    unfold py_sum. cbn. lra. }
  destruct Hq as [q Hq]. exists q. split; [exact Hq|].
  apply (charge_from_mobile_defects_formula fundamental_charge_SI bf_SI site_A
           0 300 1 q).
  - intros d Hd. cbn in Hd. apply list_elem_of_singleton in Hd. by subst d.
  - reflexivity.
  - exact Hq.
Defined.

(** X23. On a constructed site that holds fixed defects only and a single
    all-ones scaling entry, [charge] returns the stored [fixed_charge] at
    all conditions. *)
Theorem charge_fixed_only (fundamental_charge : R)
    (bf : DefectAtSite.t -> R -> R -> R)
    (label : string) (x : R) (species : list DefectSpecies.t)
    (energies : list R) (scaling : option ndarray) (valence sat : R)
    (s : Site.t) (phi temp : R) :
  Site.__init__ fundamental_charge label x species energies scaling valence sat
  = Ok s ->
  Site.mobile_defects s = [] ->
  Site.scaling s = [1] ->
  Site.charge fundamental_charge bf s phi temp = Ok (Site.fixed_charge s).
Proof.
  intros Hinit Hnone Hsc.
  destruct (init_inv _ _ _ _ _ _ _ _ _ Hinit)
    as (_ & _ & Hfix & Hmob & _ & Hval & _ & _ & Hfc & Hlen).
  assert (Hone : exists d, Site.defects s = [d]).
  { rewrite Hsc in Hlen. destruct (Site.defects s) as [|d [|d' ds]];
      try discriminate. by exists d. }
  destruct Hone as [d Hd].
  assert (Hfixed : DefectAtSite.can_equilibrate d = false).
  { destruct (DefectAtSite.can_equilibrate d) eqn:Hm; [|done].
    rewrite Hd in Hmob. rewrite filter_cons, decide_True in Hmob by done.
    rewrite Hnone in Hmob. discriminate. }
  rewrite Hfc. unfold Site.charge, Site.probabilities, Site.denominator,
    Site.calculate_fixed_charge.
  rewrite Hnone, Hd, Hsc. cbn. rewrite Hfixed. cbn.
  unfold dict_get. rewrite lookup_insert_eq. cbn. f_equal.
  unfold py_sum. cbn. ring.
Qed.

Lemma charge_fixed_only_witness :
  Site.charge fundamental_charge_SI bf_SI site_B 0 300
  = Ok (Site.fixed_charge site_B).
Proof.
  apply (charge_fixed_only fundamental_charge_SI bf_SI "O" 0 [species_B] [0]
           None 0 1 site_B 0 300); reflexivity.
Defined.
